(** * Fretboard mapper: a shallow embedding of [src/modules/fretboard.js]

    The module computes, for every string of an instrument, the row of frets
    and the sequence tags (scale overlays) each fret carries.  JavaScript
    numbers that are used as indices or fret numbers are integers here ([Z]);
    an array read out of range yields [undefined], modelled by [None]; reading
    a property of [undefined] throws a [TypeError], modelled by [Throw]. *)

From Stdlib Require Import ZArith String List Bool Lia.
From stdpp Require Import base list.
Import ListNotations.

Local Open Scope string_scope.
Local Open Scope list_scope.
Local Open Scope Z_scope.

(** ** JavaScript values and completions *)

(** A pitch class is a string such as ["C#"]. *)
Definition Note : Type := string.

(** The [TypeError]s the module can raise: each one is a property read on
    [undefined]. *)
Inductive exn : Type :=
| TypeError_fret (i : Z)          (* frets[i] is undefined *)
| TypeError_model (name : string) (* models[name] is undefined *)
| TypeError_position              (* position[0] on an undefined position *)
| TypeError_bounds.               (* seq.customFretBounds is undefined *)

Inductive completion (A : Type) : Type :=
| Normal (a : A)
| Throw (e : exn).
Arguments Normal {A} a.
Arguments Throw {A} e.

Definition bind {A B} (c : completion A) (k : A -> completion B) : completion B :=
  match c with
  | Normal a => k a
  | Throw e => Throw e
  end.

Notation "'let!' x ':=' c 'in' k" := (bind c (fun x => k))
  (at level 10, x name, c at level 100, k at level 200).

(** [forEach] with a body that may throw: the array state is threaded from
    left to right and the first exception aborts the loop. *)
Fixpoint forEachM {A S} (body : S -> A -> completion S) (l : list A) (s : S)
  : completion S :=
  match l with
  | [] => Normal s
  | x :: l' => let! s' := body s x in forEachM body l' s'
  end.

(** [arr.flatMap(f)] where [f] receives the element and its index. *)
Fixpoint flatMapM {A B} (f : A -> nat -> completion (list B)) (l : list A) (i : nat)
  : completion (list B) :=
  match l with
  | [] => Normal []
  | x :: l' =>
      let! ys := f x i in
      let! rest := flatMapM f l' (S i) in
      Normal (ys ++ rest)
  end.

(** [arr[i]] for an integer [i]: [undefined] out of range. *)
Definition lookupZ {A} (l : list A) (i : Z) : option A :=
  if i <? 0 then None else l !! Z.to_nat i.

(** [arr.indexOf(x)] on an array of strings; [x] may be [undefined]. *)
Fixpoint indexOf_from (l : list Note) (x : option Note) (i : Z) : Z :=
  match l with
  | [] => -1
  | y :: l' =>
      match x with
      | Some n => if String.eqb y n then i else indexOf_from l' x (i + 1)
      | None => indexOf_from l' x (i + 1)
      end
  end.

Definition indexOf (l : list Note) (x : option Note) : Z := indexOf_from l x 0.

(** [arr.findIndex(p)]. *)
Fixpoint findIndex_from {A} (p : A -> bool) (l : list A) (i : Z) : Z :=
  match l with
  | [] => -1
  | y :: l' => if p y then i else findIndex_from p l' (i + 1)
  end.

Definition findIndex {A} (p : A -> bool) (l : list A) : Z := findIndex_from p l 0.

(** [arr.slice(0, e)]: a negative [e] counts from the end. *)
Definition slice0 {A} (l : list A) (e : Z) : list A :=
  if e <? 0 then take (Z.to_nat (Z.of_nat (length l) + e)) l
  else take (Z.to_nat e) l.

(** [[...arr].sort(cmp)]: the sort is stable; an element moves behind another
    one only when the comparator says so. *)
Fixpoint sort_insert {A} (cmp : A -> A -> Z) (x : A) (l : list A) : list A :=
  match l with
  | [] => [x]
  | y :: l' => if 0 <? cmp x y then y :: sort_insert cmp x l' else x :: l
  end.

Definition stable_sort {A} (cmp : A -> A -> Z) (l : list A) : list A :=
  fold_right (sort_insert cmp) [] l.

(** ** Data model *)

(** A sequence descriptor.  The fields [customFretBounds] and
    [highlightedInterval] may be missing ([None]); the bounds, when present,
    are a pair of numbers. *)
Record Sequence : Type := {
  tonality : Note;
  model : string;
  position : Z;
  customFretBounds : option (Z * Z);
  isIntersected : bool;
  highlightedInterval : option Z
}.

Record Tag : Type := { index : nat; interval : Z }.

Record Fret : Type := {
  string_ : nat;
  number : Z;
  note : option Note;
  sequences : list Tag;
  isHighlighted : bool
}.

(** An entry of the model registry; [positions] is an optional property. *)
Record Model : Type := { positions : option (list (Z * Z)) }.

(** ** Vocabulary of the statements *)

(** The fields of a fret that marking never writes. *)
Definition skeleton (fret : Fret) : nat * Z * option Note :=
  (string_ fret, number fret, note fret).

(** The tags carried by [frets[f]]; no tags where the array has no entry. *)
Definition tagsAt (frets : list Fret) (f : Z) : list Tag :=
  match lookupZ frets f with
  | Some fret => sequences fret
  | None => []
  end.

(** A completion meets [P] when it returns and [R] when it throws. *)
Definition completes {S} (P : S -> Prop) (R : exn -> Prop) (c : completion S)
  : Prop :=
  match c with
  | Normal s => P s
  | Throw e => R e
  end.

(** The exception is not an out-of-range read of the fret array. *)
Definition notFretError (e : exn) : Prop :=
  match e with
  | TypeError_fret _ => False
  | _ => True
  end.

(** ** A sample environment

    The values of the imported tables are not part of this module; the
    examples below run the code with a chromatic table that starts at C, two
    octaves of frets, a registry with one windowed and one plain model, the
    major-scale steps, and an identity row shift. *)
Module Sample.

Definition notes : list Note :=
  ["C"; "C#"; "D"; "D#"; "E"; "F"; "F#"; "G"; "G#"; "A"; "A#"; "B"].

Definition models (name : string) : option Model :=
  if String.eqb name "major" then
    Some {| positions := Some [(-1, 3); (2, 5); (4, 8); (7, 10); (9, 12)] |}
  else if String.eqb name "chromatic" then Some {| positions := None |}
  else None.

Definition NB_FRETS : nat := 24.
Definition MAX_NB_FRETS : nat := 36.

Definition intervalsForSequence (seq : Sequence) : list Z :=
  if String.eqb (model seq) "major" then [2; 4; 5; 7; 9; 11] else [].

Definition shiftSequencesDown (frets : list Fret) : list Fret := frets.

Definition standardTuning : list Note := ["E"; "A"; "D"; "G"; "B"; "E"].

(** A major-scale sequence with the root highlighted. *)
Definition major (t : Note) (p : Z) (bounds : Z * Z) (intersected : bool)
  : Sequence :=
  {| tonality := t;
     model := "major";
     position := p;
     customFretBounds := Some bounds;
     isIntersected := intersected;
     highlightedInterval := Some 0 |}.

Definition tag (index : nat) (interval : Z) : Tag :=
  {| index := index; interval := interval |}.

(** The value a completion returns; the empty array if it throws. *)
Definition returned {A} (c : completion (list A)) : list A :=
  match c with
  | Normal l => l
  | Throw _ => []
  end.

(** The tags of the frets of one string in a grid, by fret number. *)
Definition tagsOfString (s : nat) (grid : list Fret) : list (Z * list Tag) :=
  map (fun fret => (number fret, sequences fret))
    (List.filter (fun fret => Nat.eqb (string_ fret) s) grid).

End Sample.

Section Fretboard.

(** The imports of the module: the chromatic note table and the model registry
    of [@/modules/music], the two fret counts of [@/modules/constants], the
    interval generator and the row-shift transform.  [NB_FRETS] is a positive
    count: the remainder by it is the truncated [Z.rem]. *)
Variable notes : list Note.
Variable models : string -> option Model.
Variable NB_FRETS : nat.
Variable MAX_NB_FRETS : nat.
Variable intervalsForSequence : Sequence -> list Z.
Variable shiftSequencesDown : list Fret -> list Fret.

(** ** [getInterval] *)

Definition getInterval (note1 note2 : option Note) : Z :=
  let index1 := indexOf notes note1 in
  let index2 := indexOf notes note2 in
  if index1 <=? index2 then index2 - index1
  else Z.of_nat (length notes) - (index1 - index2).

(** ** [isInPosition] and [shouldDisplayFret]

    [position] is [positions[seq.position - 1]] and [offset] is
    [positionOffsets[index]]; either may be [undefined].  Reading
    [position[0]] of [undefined] throws; an [undefined] offset makes both
    bounds [NaN], and every comparison with [NaN] is false.  A sequence may
    lack the [customFretBounds] field: reading its entry 0 then throws. *)

Definition isInPosition (fretNumber : Z) (position : option (Z * Z))
    (offset : option Z) : completion bool :=
  match position with
  | None => Throw TypeError_position
  | Some (low, high) =>
      match offset with
      | None => Normal false
      | Some off =>
          let start := low + off in
          let stop := high + off in
          Normal (if start <? stop
                  then (start <=? fretNumber) && (fretNumber <=? stop)
                  else (start <=? fretNumber) || (fretNumber <=? stop))
      end
  end.

Definition shouldDisplayFret (fret : Z) (index : nat) (seq : Sequence)
    (positionOffsets : list Z) : completion bool :=
  if position seq =? -1 then
    match customFretBounds seq with
    | None => Throw TypeError_bounds
    | Some (low, high) => Normal ((low <=? fret) && (fret <=? high))
    end
  else if position seq =? 0 then Normal true
  else
    match models (model seq) with
    | None => Throw (TypeError_model (model seq))
    | Some m =>
        match positions m with
        | None => Normal true
        | Some table =>
            isInPosition fret (lookupZ table (position seq - 1))
              (positionOffsets !! index)
        end
    end.

(** ** [filterCapo] *)

Definition filterCapo (frets : list Fret) (capo : Z) : list Fret :=
  map (fun fret =>
         {| string_ := string_ fret;
            number := number fret;
            note := note fret;
            sequences := if number fret <? capo then [] else sequences fret;
            isHighlighted := isHighlighted fret |}) frets.

(** ** [getFrets] *)

Definition lowestTuningNote (tuningNotes : list Note) (flipped : bool)
  : option Note :=
  if flipped then lookupZ tuningNotes (Z.of_nat (length tuningNotes) - 1)
  else lookupZ tuningNotes 0.

Definition positionOffsets (sequences : list Sequence) (tuningNotes : list Note)
    (flipped : bool) : list Z :=
  map (fun seq => getInterval (lowestTuningNote tuningNotes flipped)
                    (Some (tonality seq))) sequences.

(** The comparator handed to [sort]. *)
Definition compareIntersected (a b : Sequence) : Z :=
  if isIntersected a && negb (isIntersected b) then 1
  else if isIntersected b && negb (isIntersected a) then -1
  else 0.

Definition sortedSequences (sequences : list Sequence) : list Sequence :=
  stable_sort compareIntersected sequences.

(** The fresh row of one string.  For a non-zero [notes.length], [%] is the
    truncated remainder [Z.rem]. *)
Definition newFrets (openStringNote : Note) (stringNumber : nat) : list Fret :=
  map (fun fretNumber : nat =>
         {| string_ := stringNumber;
            number := Z.of_nat fretNumber;
            note := lookupZ notes
                      (Z.rem (indexOf notes (Some openStringNote)
                              + Z.of_nat fretNumber)
                             (Z.of_nat (length notes)));
            sequences := [];
            isHighlighted := false |})
      (seq 0 NB_FRETS).

(** [fret.note == seq.tonality]. *)
Definition noteIs (t : Note) (fret : Fret) : bool :=
  match note fret with
  | Some n => String.eqb n t
  | None => false
  end.

Definition rootFretOf (seq : Sequence) (frets : list Fret) : Z :=
  findIndex (noteIs (tonality seq)) frets.

(** [interval === seq.highlightedInterval]. *)
Definition isHighlightedInterval (seq : Sequence) (interval : Z) : bool :=
  match highlightedInterval seq with
  | Some h => interval =? h
  | None => false
  end.

(** [frets[fret].sequences.push({ index, interval })] followed by the
    highlight update. *)
Definition pushTag (seq : Sequence) (index : nat) (interval : Z) (fret : Fret)
  : Fret :=
  {| string_ := string_ fret;
     number := number fret;
     note := note fret;
     sequences := sequences fret ++ [{| index := index; interval := interval |}];
     isHighlighted :=
       if isHighlightedInterval seq interval then true else isHighlighted fret |}.

(** The body of the inner [forEach] over the target fret and its octave
    duplicate. *)
Definition markFret (seq : Sequence) (index : nat) (offsets : list Z)
    (interval : Z) (frets : list Fret) (fret : Z) : completion (list Fret) :=
  let! display := shouldDisplayFret fret index seq offsets in
  if negb display then Normal frets
  else
    match lookupZ frets fret with
    | None => Throw (TypeError_fret fret)
    | Some _ => Normal (alter (pushTag seq index interval) (Z.to_nat fret) frets)
    end.

Definition applyInterval (seq : Sequence) (index : nat) (offsets : list Z)
    (rootFret : Z) (frets : list Fret) (interval : Z) : completion (list Fret) :=
  let fretNumber := rootFret + interval in
  let mark (_ : unit) :=
    forEachM (markFret seq index offsets interval)
      [fretNumber; Z.rem (fretNumber + 12) (Z.of_nat NB_FRETS)] frets in
  if isIntersected seq then
    match lookupZ frets fretNumber with
    | None => Throw (TypeError_fret fretNumber)
    | Some fret =>
        if (length (sequences fret) =? 0)%nat then Normal frets else mark tt
    end
  else mark tt.

(** The body of [sortedSequences.forEach]. *)
Definition markSequence (offsets : list Z) (frets : list Fret)
    (entry : nat * Sequence) : completion (list Fret) :=
  let (index, seq) := entry in
  let rootFret := rootFretOf seq frets in
  let! frets1 := applyInterval seq index offsets rootFret frets 0 in
  forEachM (applyInterval seq index offsets rootFret)
    (intervalsForSequence seq) frets1.

(** An array with the index of each element, as [forEach] and [flatMap]
    pass it to their callback. *)
Definition indexed {A} (l : list A) : list (nat * A) :=
  imap (fun i x => (i, x)) l.

Definition markString (sorted : list Sequence) (offsets : list Z)
    (frets : list Fret) : completion (list Fret) :=
  forEachM (markSequence offsets) (indexed sorted) frets.

(** The duplicated frets appended to reach [MAX_NB_FRETS]. *)
Definition extendFrets (frets : list Fret) : list Fret :=
  frets ++
  map (fun fret =>
         {| string_ := string_ fret;
            number := number fret + Z.of_nat NB_FRETS;
            note := note fret;
            sequences := sequences fret;
            isHighlighted := isHighlighted fret |})
      (slice0 frets (Z.of_nat MAX_NB_FRETS - Z.of_nat NB_FRETS)).

(** The callback of [tuningNotes.flatMap]. *)
Definition stringFrets (sorted : list Sequence) (offsets : list Z)
    (openStringNote : Note) (stringNumber : nat) : completion (list Fret) :=
  let! frets := markString sorted offsets (newFrets openStringNote stringNumber) in
  Normal (extendFrets frets).

(** [allFrets] before the two post-passes. *)
Definition allFrets (sequences : list Sequence) (tuningNotes : list Note)
    (flipped : bool) : completion (list Fret) :=
  flatMapM (stringFrets (sortedSequences sequences)
              (positionOffsets sequences tuningNotes flipped))
    tuningNotes 0%nat.

Definition getFrets (sequences : list Sequence) (tuningNotes : list Note)
    (capo : Z) (flipped : bool) : completion (list Fret) :=
  let! frets := allFrets sequences tuningNotes flipped in
  Normal (filterCapo (shiftSequencesDown frets) capo).

(** ** Effect of one mark *)

(** What one pass of the inner loop does to the row: it appends the tag at
    [f] when the filter displays [f], and nothing else changes. *)
Definition marked (seq : Sequence) (index : nat) (offsets : list Z) (i : Z)
    (f : Z) (frets frets' : list Fret) : Prop :=
  exists display : bool,
    shouldDisplayFret f index seq offsets = Normal display
    /\ map skeleton frets' = map skeleton frets
    /\ (display = true -> 0 <= f < Z.of_nat (length frets))
    /\ forall g, tagsAt frets' g
          = tagsAt frets g
            ++ (if display && (g =? f)
                then [{| index := index; interval := i |}] else []).

(** ** Octave pairing of a row

    Every tag on a fret of the lower octave is also on the fret twelve
    half-steps above, unless the window filter of the tagging sequence
    suppresses that upper fret. *)
Definition octavePaired (sorted : list Sequence) (offsets : list Z)
    (frets : list Fret) : Prop :=
  forall (f : Z) (tag : Tag),
    0 <= f < Z.of_nat NB_FRETS - 12 ->
    In tag (tagsAt frets f) ->
    In tag (tagsAt frets (f + 12))
    \/ exists seq, sorted !! index tag = Some seq
         /\ shouldDisplayFret (f + 12) (index tag) seq offsets = Normal false.

(** The same pairing read downwards: every tag on a fret of the upper octave
    is also on the fret twelve half-steps below, unless the window filter of
    the tagging sequence suppresses that lower fret. *)
Definition octavePairedDown (sorted : list Sequence) (offsets : list Z)
    (frets : list Fret) : Prop :=
  forall (f : Z) (tag : Tag),
    12 <= f < Z.of_nat NB_FRETS ->
    In tag (tagsAt frets f) ->
    In tag (tagsAt frets (f - 12))
    \/ exists seq, sorted !! index tag = Some seq
         /\ shouldDisplayFret (f - 12) (index tag) seq offsets = Normal false.

(** ** Tags of intersected sequences

    In a row of two octaves the octave partner of a fret is the fret twelve
    half-steps above it in the lower octave and twelve below it in the upper
    one. *)
Definition partner (f : Z) : Z := if f <? 12 then f + 12 else f - 12.

(** A tag pushed for a sequence that is not intersected; the index of a tag
    is a position of the processing order. *)
Definition plainTag (sorted : list Sequence) (tag : Tag) : Prop :=
  exists seq, sorted !! index tag = Some seq /\ isIntersected seq = false.

(** The fret [f], or its octave partner, carries a tag of a sequence that is
    not intersected. *)
Definition backedAt (sorted : list Sequence) (frets : list Fret) (f : Z)
  : Prop :=
  exists tag,
    plainTag sorted tag
    /\ (In tag (tagsAt frets f) \/ In tag (tagsAt frets (partner f))).

(** Every fret of the row that carries a tag is backed. *)
Definition plainBacked (sorted : list Sequence) (frets : list Fret) : Prop :=
  forall f, tagsAt frets f <> [] -> backedAt sorted frets f.

(** ** Provenance of a tag

    A tag on the fret [f] is justified when the sequence processed at the
    position [index] generates its interval, [f] is the target fret of that
    interval or its octave duplicate, and the window filter of the sequence
    displays [f].  [rootOf] gives the root fret of a sequence on the string. *)
Definition justified (sorted : list Sequence) (offsets : list Z)
    (rootOf : Sequence -> Z) (f : Z) (tag : Tag) : Prop :=
  exists seq,
    sorted !! index tag = Some seq
    /\ In (interval tag) (0 :: intervalsForSequence seq)
    /\ (f = rootOf seq + interval tag
        \/ f = Z.rem (rootOf seq + interval tag + 12) (Z.of_nat NB_FRETS))
    /\ shouldDisplayFret f (index tag) seq offsets = Normal true.

(** A sequence whose display settings can be read without a [TypeError]: a
    custom window whose bounds are present, the whole scale, or a registered
    model that has no positions table or has the entry [position - 1]. *)
Definition wellConfigured (seq : Sequence) : Prop :=
  (position seq = -1 /\ exists bounds, customFretBounds seq = Some bounds)
  \/ position seq = 0
  \/ (position seq <> -1
      /\ exists m,
          models (model seq) = Some m
          /\ (positions m = None
              \/ exists table entry,
                   positions m = Some table
                   /\ lookupZ table (position seq - 1) = Some entry)).

(** The row [frets] has the strings, numbers and notes of [frets0], and
    every fret of it satisfies [P] at its position. *)
Definition rowKeeps (P : Z -> Fret -> Prop) (frets0 frets : list Fret) : Prop :=
  map skeleton frets = map skeleton frets0
  /\ forall f fret, lookupZ frets f = Some fret -> P f fret.

(** A fret without tag and without highlight. *)
Definition untagged (fret : Fret) : Prop :=
  sequences fret = [] /\ isHighlighted fret = false.

(** The copy of a fret that [extendFrets] appends. *)
Definition renumbered (fret : Fret) : Fret :=
  {| string_ := string_ fret;
     number := number fret + Z.of_nat NB_FRETS;
     note := note fret;
     sequences := sequences fret;
     isHighlighted := isHighlighted fret |}.

(** * Properties *)

Set Default Proof Using "Type".

(** ** Index lookup *)

Lemma indexOf_from_absent (l : list Note) (n : Note) (i : Z) :
  ~ In n l -> indexOf_from l (Some n) i = -1.
Proof.
  revert i; induction l as [|y l IH]; intros i Hn; simpl; [reflexivity|].
  destruct (String.eqb_spec y n) as [->|_].
  - exfalso; apply Hn; now left.
  - apply IH; intros H; apply Hn; now right.
Qed.

Lemma indexOf_from_undefined (l : list Note) (i : Z) :
  indexOf_from l None i = -1.
Proof. revert i; induction l as [|y l IH]; intros i; simpl; auto. Qed.

Lemma indexOf_from_present (l : list Note) (n : Note) (i : Z) :
  In n l ->
  i <= indexOf_from l (Some n) i < i + Z.of_nat (length l)
  /\ l !! Z.to_nat (indexOf_from l (Some n) i - i) = Some n.
Proof.
  revert i; induction l as [|y l IH]; intros i Hin; [destruct Hin|].
  simpl indexOf_from; simpl length.
  destruct (String.eqb_spec y n) as [->|Hne].
  - split; [lia|]. now replace (i - i) with 0 by lia.
  - destruct Hin as [->|Hin]; [congruence|].
    destruct (IH (i + 1) Hin) as [Hb Hl]. split; [lia|].
    replace (Z.to_nat (indexOf_from l (Some n) (i + 1) - i))
      with (S (Z.to_nat (indexOf_from l (Some n) (i + 1) - (i + 1)))) by lia.
    exact Hl.
Qed.

Lemma indexOf_present (n : Note) :
  In n notes ->
  0 <= indexOf notes (Some n) < Z.of_nat (length notes)
  /\ lookupZ notes (indexOf notes (Some n)) = Some n.
Proof.
  intros Hin. destruct (indexOf_from_present notes n 0 Hin) as [Hb Hl].
  unfold indexOf, lookupZ. split; [lia|].
  destruct (Z.ltb_spec (indexOf_from notes (Some n) 0) 0); [lia|].
  now rewrite Z.sub_0_r in Hl.
Qed.

Lemma indexOf_absent (n : Note) : ~ In n notes -> indexOf notes (Some n) = -1.
Proof. apply indexOf_from_absent. Qed.

(** ** [getInterval] *)

(** C6: on two notes of the twelve-note table, [getInterval] is the index
    difference modulo 12; it lies in [0, 11], is 0 on equal notes, and the two
    directions add up to a multiple of 12. *)
Theorem getInterval_chromatic (a b : Note) :
  length notes = 12%nat -> In a notes -> In b notes ->
  getInterval (Some a) (Some b)
    = (indexOf notes (Some b) - indexOf notes (Some a)) mod 12
  /\ 0 <= getInterval (Some a) (Some b) <= 11
  /\ getInterval (Some a) (Some a) = 0
  /\ (getInterval (Some a) (Some b) + getInterval (Some b) (Some a)) mod 12 = 0.
Proof.
  intros Hlen Ha Hb.
  destruct (indexOf_present a Ha) as [Hia _].
  destruct (indexOf_present b Hb) as [Hib _].
  rewrite Hlen in Hia, Hib.
  unfold getInterval. rewrite Hlen.
  set (ia := indexOf notes (Some a)) in *.
  set (ib := indexOf notes (Some b)) in *.
  rewrite Z.leb_refl, Z.sub_diag.
  destruct (Z.leb_spec ia ib), (Z.leb_spec ib ia); repeat split; try lia.
  - symmetry; apply Z.mod_small; lia.
  - replace (ib - ia + (ia - ib)) with 0 by lia. reflexivity.
  - symmetry; apply Z.mod_small; lia.
  - replace (ib - ia + (Z.of_nat 12 - (ib - ia))) with (1 * 12) by lia.
    apply Z.mod_mul; lia.
  - replace (ib - ia) with (Z.of_nat 12 - (ia - ib) + (-1) * 12) by lia.
    rewrite Z.mod_add by lia. symmetry; apply Z.mod_small; lia.
  - replace (Z.of_nat 12 - (ia - ib) + (ia - ib)) with (1 * 12) by lia.
    apply Z.mod_mul; lia.
Qed.

(** C7 (amended): a note that is not in the table has index -1 and the
    computation still returns an integer: the index of [note2] plus one when
    only [note1] is missing, [notes.length] minus the index of [note1] minus
    one when only [note2] is missing, and 0 when both are missing. *)
Theorem getInterval_missing_note (a b : Note) :
  ~ (In a notes /\ In b notes) ->
  getInterval (Some a) (Some b)
    = if indexOf notes (Some a) =? -1
      then indexOf notes (Some b) + 1
      else Z.of_nat (length notes) - indexOf notes (Some a) - 1.
Proof.
  intros Hmiss. unfold getInterval.
  destruct (in_dec string_dec a notes) as [Ha|Ha].
  - assert (Hb : ~ In b notes) by (intros Hb; apply Hmiss; now split).
    destruct (indexOf_present a Ha) as [Hia _].
    rewrite (indexOf_absent b Hb).
    destruct (Z.leb_spec (indexOf notes (Some a)) (-1)); [lia|].
    destruct (Z.eqb_spec (indexOf notes (Some a)) (-1)); lia.
  - rewrite (indexOf_absent a Ha). simpl.
    destruct (in_dec string_dec b notes) as [Hb|Hb].
    + destruct (indexOf_present b Hb) as [Hib _].
      destruct (Z.leb_spec (-1) (indexOf notes (Some b))); lia.
    + rewrite (indexOf_absent b Hb). reflexivity.
Qed.

(** ** The processing order *)

Lemma sort_insert_plain (x : Sequence) (l : list Sequence) :
  isIntersected x = false -> sort_insert compareIntersected x l = x :: l.
Proof.
  intros Hx. destruct l as [|y l]; [reflexivity|]. simpl.
  unfold compareIntersected. rewrite Hx. simpl.
  now destruct (isIntersected y).
Qed.

Lemma sort_insert_intersected (x : Sequence) (plain crossed : list Sequence) :
  isIntersected x = true ->
  Forall (fun y => isIntersected y = false) plain ->
  Forall (fun y => isIntersected y = true) crossed ->
  sort_insert compareIntersected x (plain ++ crossed) = plain ++ x :: crossed.
Proof.
  intros Hx Hplain Hcrossed. induction Hplain as [|y plain Hy _ IH]; simpl.
  - destruct Hcrossed as [|y crossed Hy _]; [reflexivity|]. simpl.
    unfold compareIntersected. now rewrite Hx, Hy.
  - unfold compareIntersected at 1. rewrite Hx, Hy. simpl. now rewrite IH.
Qed.

(** The sort moves the intersected sequences behind the others and keeps the
    input order inside each group. *)
Lemma sortedSequences_partition (sequences0 : list Sequence) :
  sortedSequences sequences0
  = List.filter (fun seq => negb (isIntersected seq)) sequences0
    ++ List.filter isIntersected sequences0.
Proof.
  unfold sortedSequences, stable_sort.
  induction sequences0 as [|x l IH]; [reflexivity|].
  simpl fold_right. rewrite IH. simpl.
  destruct (isIntersected x) eqn:Hx; simpl.
  - apply sort_insert_intersected; [exact Hx| |];
      apply List.Forall_forall; intros y Hy; apply filter_In in Hy as [_ Hy];
      [now apply negb_true_iff in Hy|exact Hy].
  - now apply sort_insert_plain.
Qed.

(** ** Loops *)

Lemma forEachM_completes {A S} (P : S -> Prop) (R : exn -> Prop) (Q : A -> Prop)
    (body : S -> A -> completion S) (l : list A) :
  (forall s x, P s -> Q x -> completes P R (body s x)) ->
  forall s, P s -> Forall Q l -> completes P R (forEachM body l s).
Proof.
  intros Hbody. induction l as [|x l IH]; intros s Hs Hl; simpl; [exact Hs|].
  inversion Hl as [|? ? Hx Hl']; subst.
  specialize (Hbody s x Hs Hx).
  destruct (body s x) as [s'|e]; simpl in *; [|exact Hbody].
  now apply IH.
Qed.

Lemma indexed_from_Forall {A} (l : list A) (f : nat -> nat) (full : list A) :
  (forall k x, l !! k = Some x -> full !! f k = Some x) ->
  Forall (fun e : nat * A => full !! fst e = Some (snd e))
    (imap (fun i x => (f i, x)) l).
Proof.
  revert f; induction l as [|x l IH]; intros f Hl; simpl; constructor.
  - simpl. now apply (Hl 0%nat).
  - apply (IH (fun i => f (S i))). intros k y Hk. now apply (Hl (S k)).
Qed.

Lemma indexed_Forall {A} (l : list A) :
  Forall (fun e : nat * A => l !! fst e = Some (snd e)) (indexed l).
Proof. apply (indexed_from_Forall l (fun i => i) l). auto. Qed.

(** ** One mark *)

Lemma lookupZ_Some_range {A} (l : list A) (f : Z) (x : A) :
  lookupZ l f = Some x -> 0 <= f < Z.of_nat (length l).
Proof.
  unfold lookupZ. destruct (Z.ltb_spec f 0) as [Hneg|Hpos]; [discriminate|].
  intros Hl. apply lookup_lt_Some in Hl. lia.
Qed.

Lemma lookupZ_in_range {A} (l : list A) (f : Z) :
  0 <= f < Z.of_nat (length l) -> exists x, lookupZ l f = Some x.
Proof.
  intros Hf. unfold lookupZ. destruct (Z.ltb_spec f 0); [lia|].
  destruct (lookup_lt_is_Some_2 l (Z.to_nat f)) as [x Hx]; [lia|]. eauto.
Qed.

Lemma tagsAt_alter (seq : Sequence) (index : nat) (i : Z) (frets : list Fret)
    (f g : Z) (fret : Fret) :
  lookupZ frets f = Some fret ->
  tagsAt (alter (pushTag seq index i) (Z.to_nat f) frets) g
    = tagsAt frets g
      ++ (if g =? f then [{| index := index; interval := i |}] else []).
Proof.
  intros Hf. pose proof (lookupZ_Some_range _ _ _ Hf) as Hr.
  unfold tagsAt, lookupZ in *.
  destruct (Z.ltb_spec f 0); [lia|].
  destruct (Z.ltb_spec g 0).
  - destruct (Z.eqb_spec g f); [lia|reflexivity].
  - destruct (Z.eqb_spec g f) as [->|Hne].
    + rewrite list_lookup_alter_eq, Hf. reflexivity.
    + rewrite list_lookup_alter_ne by lia. now rewrite app_nil_r.
Qed.

Lemma skeleton_alter (seq : Sequence) (index : nat) (i : Z) (frets : list Fret)
    (k : nat) :
  map skeleton (alter (pushTag seq index i) k frets) = map skeleton frets.
Proof.
  revert k; induction frets as [|x l IH]; intros [|k]; try reflexivity.
  change (skeleton x :: map skeleton (alter (pushTag seq index i) k l)
          = skeleton x :: map skeleton l).
  f_equal. apply IH.
Qed.

Lemma markFret_Normal (seq : Sequence) (index : nat) (offsets : list Z)
    (i f : Z) (frets frets' : list Fret) :
  markFret seq index offsets i frets f = Normal frets' ->
  marked seq index offsets i f frets frets'.
Proof.
  unfold markFret, marked.
  destruct (shouldDisplayFret f index seq offsets) as [display|e];
    simpl; [|discriminate].
  destruct display; simpl.
  - destruct (lookupZ frets f) as [fret|] eqn:Hf; [|discriminate].
    intros [= <-]. exists true. split; [reflexivity|]. split.
    + apply skeleton_alter.
    + split; [intros _; eapply lookupZ_Some_range; eauto|].
      intros g. simpl. eapply tagsAt_alter; eauto.
  - intros [= <-]. exists false. split; [reflexivity|]. split; [reflexivity|].
    split; [discriminate|]. intros g. simpl. now rewrite app_nil_r.
Qed.

(** [applyInterval] either returns early on an empty target fret of an
    intersected sequence, or runs the inner loop on the target and on its
    octave duplicate. *)
Lemma applyInterval_Normal (seq : Sequence) (index : nat) (offsets : list Z)
    (root i : Z) (frets frets' : list Fret) :
  applyInterval seq index offsets root frets i = Normal frets' ->
  (isIntersected seq = true /\ tagsAt frets (root + i) = [] /\ frets' = frets)
  \/ ((isIntersected seq = false \/ tagsAt frets (root + i) <> [])
      /\ exists frets1,
          marked seq index offsets i (root + i) frets frets1
          /\ marked seq index offsets i
               (Z.rem (root + i + 12) (Z.of_nat NB_FRETS)) frets1 frets').
Proof.
  unfold applyInterval. simpl forEachM.
  assert (Hloop :
    (let! s' := markFret seq index offsets i frets (root + i) in
     let! s'0 := markFret seq index offsets i s'
                   (Z.rem (root + i + 12) (Z.of_nat NB_FRETS)) in
     Normal s'0) = Normal frets' ->
    exists frets1,
      marked seq index offsets i (root + i) frets frets1
      /\ marked seq index offsets i
           (Z.rem (root + i + 12) (Z.of_nat NB_FRETS)) frets1 frets').
  { destruct (markFret seq index offsets i frets (root + i))
      as [frets1|e] eqn:H1; simpl; [|discriminate].
    destruct (markFret seq index offsets i frets1
                (Z.rem (root + i + 12) (Z.of_nat NB_FRETS)))
      as [frets2|e] eqn:H2; simpl; [|discriminate].
    intros [= <-]. exists frets1. split; now apply markFret_Normal. }
  destruct (isIntersected seq) eqn:Hint.
  - unfold tagsAt.
    destruct (lookupZ frets (root + i)) as [fret|] eqn:Hf; [|discriminate].
    destruct (sequences fret) as [|tag tags] eqn:Htags; simpl.
    + intros [= <-]. left. auto.
    + intros H. right. split; [right; discriminate|]. now apply Hloop.
  - intros H. right. split; [now left|]. now apply Hloop.
Qed.

Lemma rootFretOf_skeleton (seq : Sequence) (frets frets' : list Fret) :
  map skeleton frets = map skeleton frets' ->
  rootFretOf seq frets = rootFretOf seq frets'.
Proof.
  unfold rootFretOf, findIndex. generalize 0.
  revert frets'; induction frets as [|x l IH]; intros [|y l'] z Hs;
    try discriminate; [reflexivity|].
  change (skeleton x :: map skeleton l = skeleton y :: map skeleton l') in Hs.
  assert (Hxy : skeleton x = skeleton y) by congruence.
  assert (Hl : map skeleton l = map skeleton l') by congruence.
  assert (Hp : noteIs (tonality seq) x = noteIs (tonality seq) y).
  { unfold noteIs. replace (note x) with (snd (skeleton x)) by reflexivity.
    now rewrite Hxy. }
  simpl. rewrite Hp. destruct (noteIs (tonality seq) y); [reflexivity|]. now apply IH.
Qed.

Lemma rem_octave (t : Z) :
  0 <= t < 24 -> Z.rem (t + 12) 24 = if t <? 12 then t + 12 else t - 12.
Proof.
  intros Ht. rewrite Z.rem_mod_nonneg by lia.
  destruct (Z.ltb_spec t 12).
  - apply Z.mod_small; lia.
  - replace (t + 12) with (t - 12 + 1 * 24) by lia.
    rewrite Z.mod_add by lia. apply Z.mod_small; lia.
Qed.

Lemma rem_in_row (t : Z) :
  0 <= t -> (0 < NB_FRETS)%nat ->
  0 <= Z.rem (t + 12) (Z.of_nat NB_FRETS) < Z.of_nat NB_FRETS.
Proof.
  intros Ht Hn. rewrite Z.rem_mod_nonneg by lia. apply Z.mod_pos_bound. lia.
Qed.

Lemma in_added (b : bool) (g f : Z) (tag tag' : Tag) :
  In tag (if b && (g =? f) then [tag'] else []) <->
  b = true /\ g = f /\ tag = tag'.
Proof.
  destruct b; simpl; [|intuition discriminate].
  destruct (Z.eqb_spec g f); simpl; intuition congruence.
Qed.

(** ** The intersected guard *)

(** The guard of an intersected sequence reads the target fret only: when
    that fret carries no tag, the call returns the row as it is. *)
Lemma applyInterval_intersected_empty_target (seq : Sequence) (index : nat)
    (offsets : list Z) (root i : Z) (frets : list Fret) (fret : Fret) :
  isIntersected seq = true ->
  lookupZ frets (root + i) = Some fret ->
  sequences fret = [] ->
  applyInterval seq index offsets root frets i = Normal frets.
Proof.
  intros Hint Hf Htags. unfold applyInterval.
  now rewrite Hint, Hf, Htags.
Qed.

(** ** Octave duplication *)

Lemma applyInterval_octavePaired (sorted : list Sequence) (offsets : list Z)
    (seq : Sequence) (index : nat) (root i : Z) (frets frets' : list Fret) :
  NB_FRETS = 24%nat ->
  sorted !! index = Some seq ->
  0 <= root + i < 24 ->
  octavePaired sorted offsets frets ->
  applyInterval seq index offsets root frets i = Normal frets' ->
  octavePaired sorted offsets frets'
  /\ map skeleton frets' = map skeleton frets.
Proof.
  intros HNB Hseq Ht Hinv Happ.
  destruct (applyInterval_Normal _ _ _ _ _ _ _ Happ)
    as [(_ & _ & ->)|(_ & frets1 & Hm1 & Hm2)]; [auto|].
  rewrite HNB in Hm2. change (Z.of_nat 24) with 24 in Hm2.
  rewrite rem_octave in Hm2 by exact Ht.
  destruct Hm1 as (b1 & Hd1 & Hs1 & _ & Ht1).
  destruct Hm2 as (b2 & Hd2 & Hs2 & _ & Ht2).
  split; [|congruence].
  intros f tag Hf Hin. rewrite HNB in Hf. change (Z.of_nat 24) with 24 in Hf.
  rewrite Ht2, Ht1 in Hin. rewrite Ht2, Ht1.
  rewrite !in_app_iff, !in_added in Hin. rewrite !in_app_iff, !in_added.
  destruct Hin as [[Hold|(-> & -> & ->)]|(-> & Hfd & ->)].
  - destruct (Hinv f tag) as [Hup|Hsup]; [rewrite HNB; lia|exact Hold|auto|auto].
  - destruct (Z.ltb_spec (root + i) 12); [|lia].
    destruct b2; [left; right; auto|].
    right. exists seq. simpl. auto.
  - destruct (Z.ltb_spec (root + i) 12) as [Hlt|Hge]; [lia|].
    destruct b1.
    + left. left. right. repeat split; [lia].
    + right. exists seq. simpl. split; [exact Hseq|].
      now replace (f + 12) with (root + i) by lia.
Qed.

Lemma markString_octavePaired (sorted : list Sequence) (offsets : list Z)
    (frets0 : list Fret) :
  NB_FRETS = 24%nat ->
  (forall index seq i,
      sorted !! index = Some seq ->
      In i (0 :: intervalsForSequence seq) ->
      0 <= rootFretOf seq frets0 + i < 24) ->
  octavePaired sorted offsets frets0 ->
  completes
    (fun frets => octavePaired sorted offsets frets
                  /\ map skeleton frets = map skeleton frets0)
    (fun _ => True)
    (markString sorted offsets frets0).
Proof.
  intros HNB Hrange Hinv0. unfold markString.
  apply forEachM_completes
    with (Q := fun e : nat * Sequence => sorted !! fst e = Some (snd e));
    [|auto|apply indexed_Forall].
  intros frets [index seq] [Hinv Hskel] Hseq. simpl in Hseq.
  unfold markSequence.
  rewrite (rootFretOf_skeleton seq frets frets0 Hskel).
  set (root := rootFretOf seq frets0).
  assert (Hstep : forall s i,
             (octavePaired sorted offsets s
              /\ map skeleton s = map skeleton frets0) ->
             In i (0 :: intervalsForSequence seq) ->
             completes
               (fun frets => octavePaired sorted offsets frets
                             /\ map skeleton frets = map skeleton frets0)
               (fun _ => True)
               (applyInterval seq index offsets root s i)).
  { intros s i [Hs Hsk] Hi.
    destruct (applyInterval seq index offsets root s i) as [s'|e] eqn:Happ;
      simpl; [|exact I].
    destruct (applyInterval_octavePaired sorted offsets seq index root i s s')
      as [Hs' Hsk']; auto.
    - apply (Hrange index seq i); auto.
    - split; [exact Hs'|congruence]. }
  pose proof (Hstep frets 0 (conj Hinv Hskel) (or_introl eq_refl)) as H0.
  destruct (applyInterval seq index offsets root frets 0) as [frets1|e];
    simpl in *; [|exact I].
  apply forEachM_completes
    with (Q := fun i => In i (0 :: intervalsForSequence seq)); auto.
  apply List.Forall_forall. intros i Hi. now right.
Qed.

Lemma newFrets_no_tags (openStringNote : Note) (stringNumber : nat) (f : Z) :
  tagsAt (newFrets openStringNote stringNumber) f = [].
Proof.
  unfold tagsAt, lookupZ, newFrets.
  destruct (f <? 0); [reflexivity|].
  change (map ?g ?l) with (g <$> l). rewrite list_lookup_fmap.
  now destruct (seq 0 NB_FRETS !! Z.to_nat f).
Qed.

(** C4: an applied interval writes its tag to each fret of the pair (target
    fret, octave duplicate) that the window filter displays; with two octaves
    of frets and targets inside the row, every tag on a fret [f] below
    [NB_FRETS - 12] is also on the fret [f + 12], unless the filter of the
    tagging sequence suppresses [f + 12]. *)
Theorem octave_duplicate_marks :
  ((0 < NB_FRETS)%nat ->
   forall seq index offsets root i frets frets' fret,
      applyInterval seq index offsets root frets i = Normal frets' ->
      isIntersected seq = false \/ tagsAt frets (root + i) <> [] ->
      In fret [root + i; Z.rem (root + i + 12) (Z.of_nat NB_FRETS)] ->
      shouldDisplayFret fret index seq offsets = Normal true ->
      In {| index := index; interval := i |} (tagsAt frets' fret))
  /\ (NB_FRETS = 24%nat ->
      forall sorted offsets openStringNote stringNumber frets',
        (forall index seq i,
            sorted !! index = Some seq ->
            In i (0 :: intervalsForSequence seq) ->
            0 <= rootFretOf seq (newFrets openStringNote stringNumber) + i < 24) ->
        markString sorted offsets (newFrets openStringNote stringNumber)
          = Normal frets' ->
        forall (f : Z) (tag : Tag),
          0 <= f < Z.of_nat NB_FRETS - 12 ->
          In tag (tagsAt frets' f) ->
          In tag (tagsAt frets' (f + 12))
          \/ exists seq,
               sorted !! index tag = Some seq
               /\ shouldDisplayFret (f + 12) (index tag) seq offsets
                  = Normal false).
Proof.
  split.
  - intros _ seq index offsets root i frets frets' fret Happ Hguard Hfret Hshow.
    destruct (applyInterval_Normal _ _ _ _ _ _ _ Happ)
      as [(Hint & Hempty & _)|(_ & frets1 & Hm1 & Hm2)].
    { destruct Hguard; congruence. }
    destruct Hm1 as (b1 & Hd1 & _ & _ & Ht1).
    destruct Hm2 as (b2 & Hd2 & _ & _ & Ht2).
    rewrite Ht2, Ht1, !in_app_iff, !in_added.
    destruct Hfret as [<-|[<-|[]]].
    + left. right. split; [congruence|auto].
    + right. split; [congruence|auto].
  - intros HNB sorted offsets openStringNote stringNumber frets' Hrange Hmark.
    pose proof (markString_octavePaired sorted offsets
                  (newFrets openStringNote stringNumber) HNB Hrange) as Hc.
    rewrite Hmark in Hc. simpl in Hc. apply Hc.
    intros f tag _ Hin. rewrite newFrets_no_tags in Hin. destruct Hin.
Qed.

(** ** The fresh row and the root fret *)

Lemma newFrets_length (openStringNote : Note) (stringNumber : nat) :
  length (newFrets openStringNote stringNumber) = NB_FRETS.
Proof. unfold newFrets. now rewrite length_map, length_seq. Qed.

Lemma newFrets_lookup (openStringNote : Note) (stringNumber k : nat) :
  (k < NB_FRETS)%nat ->
  newFrets openStringNote stringNumber !! k
  = Some {| string_ := stringNumber;
            number := Z.of_nat k;
            note := lookupZ notes
                      (Z.rem (indexOf notes (Some openStringNote) + Z.of_nat k)
                             (Z.of_nat (length notes)));
            sequences := [];
            isHighlighted := false |}.
Proof.
  intros Hk. unfold newFrets. change (map ?g ?l) with (g <$> l).
  rewrite list_lookup_fmap, lookup_seq_lt by exact Hk. reflexivity.
Qed.

Lemma newFrets_In (openStringNote : Note) (stringNumber : nat) (fret : Fret) :
  In fret (newFrets openStringNote stringNumber) ->
  exists k : nat,
    (k < NB_FRETS)%nat
    /\ string_ fret = stringNumber
    /\ number fret = Z.of_nat k
    /\ note fret
       = lookupZ notes
           (Z.rem (indexOf notes (Some openStringNote) + Z.of_nat k)
                  (Z.of_nat (length notes))).
Proof.
  unfold newFrets. rewrite in_map_iff. intros (k & <- & Hk).
  apply in_seq in Hk. exists k. simpl. repeat split; auto. lia.
Qed.

Lemma lookupZ_In {A} (l : list A) (i : Z) (x : A) :
  lookupZ l i = Some x -> In x l.
Proof.
  unfold lookupZ. destruct (i <? 0); [discriminate|].
  intros H. apply list_elem_of_In. eapply list_elem_of_lookup_2; eauto.
Qed.

Lemma findIndex_from_found {A} (p : A -> bool) (l : list A) (k : nat) (x : A)
    (i : Z) :
  l !! k = Some x -> p x = true ->
  i <= findIndex_from p l i <= i + Z.of_nat k.
Proof.
  revert k i; induction l as [|y l IH]; intros k i Hk Hp; [discriminate|].
  simpl. destruct (p y) eqn:Hy; [lia|].
  destruct k as [|k]; [simpl in Hk; congruence|].
  specialize (IH k (i + 1) Hk Hp). lia.
Qed.

Lemma findIndex_from_none {A} (p : A -> bool) (l : list A) (i : Z) :
  (forall x, In x l -> p x = false) -> findIndex_from p l i = -1.
Proof.
  revert i; induction l as [|y l IH]; intros i Hl; [reflexivity|].
  simpl. rewrite (Hl y) by now left. apply IH. intros x Hx. apply Hl. now right.
Qed.

Lemma rootFretOf_in_first_octave (seq : Sequence) (openStringNote : Note)
    (stringNumber : nat) :
  length notes = 12%nat -> (12 <= NB_FRETS)%nat ->
  In openStringNote notes -> In (tonality seq) notes ->
  0 <= rootFretOf seq (newFrets openStringNote stringNumber) <= 11.
Proof.
  intros Hlen HNB Hopen Hton.
  destruct (indexOf_present _ Hopen) as [Hio _].
  destruct (indexOf_present _ Hton) as [Hit Hlt].
  rewrite Hlen in Hio, Hit.
  set (io := indexOf notes (Some openStringNote)) in *.
  set (it := indexOf notes (Some (tonality seq))) in *.
  assert (Hk : 0 <= (it - io) mod 12 < 12) by (apply Z.mod_pos_bound; lia).
  pose proof (newFrets_lookup openStringNote stringNumber
                (Z.to_nat ((it - io) mod 12))) as Hfret.
  unfold rootFretOf, findIndex.
  eapply (findIndex_from_found (noteIs (tonality seq)) _ _ _ 0) in Hfret.
  - lia.
  - lia.
  - unfold noteIs. simpl. fold io. rewrite Hlen.
    rewrite Z2Nat.id by lia.
    rewrite Z.rem_mod_nonneg by lia.
    rewrite Z.add_mod_idemp_r by lia.
    replace (io + (it - io)) with it by lia.
    rewrite Z.mod_small by lia. rewrite Hlt. apply String.eqb_refl.
Qed.

Lemma rootFretOf_missing_tonality (seq : Sequence) (openStringNote : Note)
    (stringNumber : nat) :
  ~ In (tonality seq) notes ->
  rootFretOf seq (newFrets openStringNote stringNumber) = -1.
Proof.
  intros Hton. unfold rootFretOf, findIndex. apply findIndex_from_none.
  intros fret Hfret. apply newFrets_In in Hfret as (k & _ & _ & _ & Hnote).
  unfold noteIs. rewrite Hnote.
  destruct (lookupZ notes _) as [n|] eqn:Hn; [|reflexivity].
  cbv beta iota.
  destruct (String.eqb_spec n (tonality seq)) as [Heq|]; [|reflexivity].
  exfalso. apply Hton. rewrite <- Heq. eapply lookupZ_In; eauto.
Qed.

(** ** Reads of the fret array *)

Lemma completes_weaken {S} (P P' : S -> Prop) (R R' : exn -> Prop)
    (c : completion S) :
  (forall s, P s -> P' s) -> (forall e, R e -> R' e) ->
  completes P R c -> completes P' R' c.
Proof. destruct c; simpl; auto. Qed.

Lemma flatMapM_completes {A B} (P : nat -> A -> B -> Prop) (R : exn -> Prop)
    (f : A -> nat -> completion (list B)) (l : list A) (i : nat) :
  (forall k x, l !! k = Some x ->
               completes (Forall (P (i + k)%nat x)) R (f x (i + k)%nat)) ->
  completes
    (Forall (fun y => exists k x, l !! k = Some x /\ P (i + k)%nat x y))
    R (flatMapM f l i).
Proof.
  revert i; induction l as [|x l IH]; intros i Hf; [constructor|].
  cbn [flatMapM].
  pose proof (Hf 0%nat x eq_refl) as Hx. rewrite Nat.add_0_r in Hx.
  destruct (f x i) as [ys|e]; cbn [bind completes] in *; [|exact Hx].
  specialize (IH (S i)).
  destruct (flatMapM f l (S i)) as [rest|e]; cbn [bind completes] in *.
  - apply Forall_app. split.
    + eapply Forall_impl; [exact Hx|]. intros y Hy. exists 0%nat, x.
      rewrite Nat.add_0_r. auto.
    + eapply Forall_impl; [apply IH|].
      * intros k z Hk. replace (S i + k)%nat with (i + S k)%nat by lia.
        now apply Hf.
      * intros y (k & z & Hk & Hy). exists (S k), z.
        replace (i + S k)%nat with (S i + k)%nat by lia. auto.
  - apply IH. intros k z Hk. replace (S i + k)%nat with (i + S k)%nat by lia.
    now apply Hf.
Qed.

Lemma sort_insert_In {A} (cmp : A -> A -> Z) (x y : A) (l : list A) :
  In y (sort_insert cmp x l) -> y = x \/ In y l.
Proof.
  induction l as [|z l IH]; simpl; [intuition|].
  destruct (0 <? cmp x z); simpl; intuition.
Qed.

Lemma sortedSequences_In (sequences0 : list Sequence) (seq : Sequence) :
  In seq (sortedSequences sequences0) -> In seq sequences0.
Proof.
  unfold sortedSequences, stable_sort.
  induction sequences0 as [|x l IH]; simpl; [auto|].
  intros H. apply sort_insert_In in H as [->|H]; auto.
Qed.

Lemma skeleton_length (frets frets' : list Fret) :
  map skeleton frets' = map skeleton frets -> length frets' = length frets.
Proof.
  intros H. apply (f_equal (@length _)) in H. now rewrite !length_map in H.
Qed.

Lemma shouldDisplayFret_notFretError (f : Z) (index : nat) (seq : Sequence)
    (offsets : list Z) :
  completes (fun _ => True) notFretError (shouldDisplayFret f index seq offsets).
Proof.
  unfold shouldDisplayFret, isInPosition.
  destruct (position seq =? -1);
    [destruct (customFretBounds seq) as [[low high]|]; exact I|].
  destruct (position seq =? 0); [exact I|].
  destruct (models (model seq)) as [m|]; [|exact I].
  destruct (positions m) as [table|]; [|exact I].
  destruct (lookupZ table (position seq - 1)) as [[low high]|]; [|exact I].
  destruct (offsets !! index); exact I.
Qed.

Lemma markFret_in_row (seq : Sequence) (index : nat) (offsets : list Z)
    (i f : Z) (frets : list Fret) :
  0 <= f < Z.of_nat (length frets) ->
  completes (fun frets' => map skeleton frets' = map skeleton frets)
    notFretError (markFret seq index offsets i frets f).
Proof.
  intros Hf. unfold markFret.
  pose proof (shouldDisplayFret_notFretError f index seq offsets) as Hd.
  destruct (shouldDisplayFret f index seq offsets) as [[|]|e]; simpl in *;
    [|reflexivity|exact Hd].
  destruct (lookupZ_in_range frets f Hf) as [fret ->]. simpl.
  apply skeleton_alter.
Qed.

Lemma applyInterval_in_row (seq : Sequence) (index : nat) (offsets : list Z)
    (root i : Z) (frets : list Fret) :
  length frets = NB_FRETS ->
  0 <= root + i < Z.of_nat NB_FRETS ->
  completes (fun frets' => map skeleton frets' = map skeleton frets)
    notFretError (applyInterval seq index offsets root frets i).
Proof.
  intros Hlen Ht.
  assert (Hloop :
    completes (fun frets' => map skeleton frets' = map skeleton frets)
      notFretError
      (forEachM (markFret seq index offsets i)
         [root + i; Z.rem (root + i + 12) (Z.of_nat NB_FRETS)] frets)).
  { simpl.
    pose proof (markFret_in_row seq index offsets i (root + i) frets) as H1.
    destruct (markFret seq index offsets i frets (root + i)) as [frets1|e];
      simpl in *; [|apply H1; lia].
    specialize (H1 ltac:(lia)).
    pose proof (markFret_in_row seq index offsets i
                  (Z.rem (root + i + 12) (Z.of_nat NB_FRETS)) frets1) as H2.
    rewrite (skeleton_length _ _ H1), Hlen in H2.
    specialize (H2 ltac:(apply rem_in_row; lia)).
    destruct (markFret seq index offsets i frets1 _) as [frets2|e];
      simpl in *; [congruence|exact H2]. }
  unfold applyInterval.
  destruct (isIntersected seq); [|exact Hloop].
  destruct (lookupZ_in_range frets (root + i)) as [fret ->]; [lia|].
  destruct (length (sequences fret) =? 0)%nat; [reflexivity|exact Hloop].
Qed.

Lemma markString_in_row (sorted : list Sequence) (offsets : list Z)
    (frets0 : list Fret) :
  length frets0 = NB_FRETS ->
  (forall seq i,
      In seq sorted -> In i (0 :: intervalsForSequence seq) ->
      0 <= rootFretOf seq frets0 + i < Z.of_nat NB_FRETS) ->
  completes (fun frets => map skeleton frets = map skeleton frets0)
    notFretError (markString sorted offsets frets0).
Proof.
  intros Hlen Hrange. unfold markString.
  apply forEachM_completes
    with (Q := fun e : nat * Sequence => In (snd e) sorted); [|reflexivity|].
  - intros frets [index seq] Hskel Hseq. simpl in Hseq. unfold markSequence.
    rewrite (rootFretOf_skeleton seq frets frets0 Hskel).
    set (root := rootFretOf seq frets0).
    assert (Hstep : forall s i,
               map skeleton s = map skeleton frets0 ->
               In i (0 :: intervalsForSequence seq) ->
               completes (fun frets => map skeleton frets = map skeleton frets0)
                 notFretError (applyInterval seq index offsets root s i)).
    { intros s i Hs Hi.
      eapply completes_weaken;
        [| |apply applyInterval_in_row;
            [rewrite (skeleton_length _ _ Hs); exact Hlen
            |apply Hrange; assumption]];
        [intros s' Hs'; congruence|auto]. }
    pose proof (Hstep frets 0 Hskel (or_introl eq_refl)) as H0.
    destruct (applyInterval seq index offsets root frets 0) as [frets1|e];
      simpl in *; [|exact H0].
    apply forEachM_completes
      with (Q := fun i => In i (0 :: intervalsForSequence seq)); auto.
    apply List.Forall_forall. intros i Hi. now right.
  - eapply Forall_impl; [apply indexed_Forall|].
    intros [index seq] Hl. simpl in *. apply list_elem_of_In.
    eapply list_elem_of_lookup_2; eauto.
Qed.

Lemma bind_Normal_r {A} (c : completion A) :
  (let! s := c in Normal s) = c.
Proof. now destruct c. Qed.

(** C10 (amended): when the table has twelve notes, the row has at least
    twelve frets, every tuning note and every tonality is in the table, and
    every generated interval [i] keeps [0 <= rootFret + i <= NB_FRETS - 1],
    the root fret lies in 0..11 and [getFrets] never reads the fret array out
    of range.  When a tonality is not in the table, the root fret is -1;
    [applyInterval(0)] then reads [frets[-1]] and throws if the sequence is
    intersected or the window filter displays fret -1, and otherwise skips
    fret -1 and only marks the duplicate fret. *)
Theorem fret_reads_in_bounds (sequences0 : list Sequence)
    (tuningNotes : list Note) (capo : Z) (flipped : bool) :
  (length notes = 12%nat -> (12 <= NB_FRETS)%nat ->
   (forall openStringNote, In openStringNote tuningNotes ->
                           In openStringNote notes) ->
   (forall seq, In seq sequences0 -> In (tonality seq) notes) ->
   (forall stringNumber openStringNote seq i,
       tuningNotes !! stringNumber = Some openStringNote ->
       In seq sequences0 -> In i (intervalsForSequence seq) ->
       0 <= rootFretOf seq (newFrets openStringNote stringNumber) + i
         <= Z.of_nat NB_FRETS - 1) ->
   (forall stringNumber openStringNote seq,
       tuningNotes !! stringNumber = Some openStringNote ->
       In seq sequences0 ->
       0 <= rootFretOf seq (newFrets openStringNote stringNumber) <= 11)
   /\ completes (fun _ => True) notFretError
        (getFrets sequences0 tuningNotes capo flipped))
  /\ (forall seq index offsets openStringNote stringNumber frets,
        ~ In (tonality seq) notes ->
        rootFretOf seq (newFrets openStringNote stringNumber) = -1
        /\ (isIntersected seq = true
            \/ shouldDisplayFret (-1) index seq offsets = Normal true ->
            applyInterval seq index offsets (-1) frets 0
              = Throw (TypeError_fret (-1)))
        /\ (isIntersected seq = false ->
            shouldDisplayFret (-1) index seq offsets = Normal false ->
            applyInterval seq index offsets (-1) frets 0
              = markFret seq index offsets 0 frets
                  (Z.rem 11 (Z.of_nat NB_FRETS)))).
Proof.
  split.
  - intros Hlen HNB Htuning Hton Hrange.
    assert (Hroot : forall stringNumber openStringNote seq,
               tuningNotes !! stringNumber = Some openStringNote ->
               In seq sequences0 ->
               0 <= rootFretOf seq (newFrets openStringNote stringNumber) <= 11).
    { intros stringNumber openStringNote seq Hs Hseq.
      apply rootFretOf_in_first_octave; auto.
      apply Htuning, list_elem_of_In. eapply list_elem_of_lookup_2; eauto. }
    split; [exact Hroot|].
    unfold getFrets, allFrets.
    pose proof (flatMapM_completes (fun _ _ _ => True) notFretError
                  (stringFrets (sortedSequences sequences0)
                     (positionOffsets sequences0 tuningNotes flipped))
                  tuningNotes 0%nat) as Hall.
    match type of Hall with ?H -> _ => assert (Hstrings : H) end.
    { intros k openStringNote Hk. simpl. unfold stringFrets.
      pose proof (markString_in_row (sortedSequences sequences0)
                    (positionOffsets sequences0 tuningNotes flipped)
                    (newFrets openStringNote k)
                    (newFrets_length openStringNote k)) as Hrow.
      match type of Hrow with ?H -> _ => assert (Hr : H) end.
      { intros seq i Hseq Hi. apply sortedSequences_In in Hseq.
        destruct Hi as [<-|Hi].
        - specialize (Hroot k openStringNote seq Hk Hseq). lia.
        - specialize (Hrange k openStringNote seq i Hk Hseq Hi). lia. }
      specialize (Hrow Hr).
      destruct (markString _ _ (newFrets openStringNote k)) as [frets|e];
        simpl in *; [|exact Hrow].
      apply List.Forall_forall. auto. }
    specialize (Hall Hstrings).
    destruct (flatMapM _ tuningNotes 0%nat) as [frets|e]; simpl in *;
      [exact I|exact Hall].
  - intros seq index offsets openStringNote stringNumber frets Hton.
    split; [now apply rootFretOf_missing_tonality|].
    unfold applyInterval. change (-1 + 0) with (-1).
    change (-1 + 12) with 11. change (lookupZ frets (-1)) with (@None Fret).
    split.
    + intros [Hint|Hshow].
      * now rewrite Hint.
      * destruct (isIntersected seq); [reflexivity|].
        simpl. unfold markFret at 1. rewrite Hshow. simpl.
        change (lookupZ frets (-1)) with (@None Fret). reflexivity.
    + intros Hint Hshow. rewrite Hint. simpl.
      unfold markFret at 1. rewrite Hshow. simpl. apply bind_Normal_r.
Qed.

(** ** Notes of the grid *)

Lemma applyInterval_skeleton (seq : Sequence) (index : nat) (offsets : list Z)
    (root i : Z) (frets : list Fret) :
  completes (fun frets' => map skeleton frets' = map skeleton frets)
    (fun _ => True) (applyInterval seq index offsets root frets i).
Proof.
  destruct (applyInterval seq index offsets root frets i) as [frets'|e] eqn:H;
    simpl; [|exact I].
  destruct (applyInterval_Normal _ _ _ _ _ _ _ H)
    as [(_ & _ & ->)|(_ & frets1 & Hm1 & Hm2)]; [reflexivity|].
  destruct Hm1 as (_ & _ & Hs1 & _). destruct Hm2 as (_ & _ & Hs2 & _).
  congruence.
Qed.

Lemma markString_skeleton (sorted : list Sequence) (offsets : list Z)
    (frets0 : list Fret) :
  completes (fun frets => map skeleton frets = map skeleton frets0)
    (fun _ => True) (markString sorted offsets frets0).
Proof.
  unfold markString.
  apply forEachM_completes with (Q := fun _ => True);
    [|reflexivity|apply List.Forall_forall; auto].
  intros frets [index seq] Hskel _. unfold markSequence.
  assert (Hstep : forall s i,
             map skeleton s = map skeleton frets0 -> True ->
             completes (fun frets => map skeleton frets = map skeleton frets0)
               (fun _ => True)
               (applyInterval seq index offsets (rootFretOf seq frets) s i)).
  { intros s i Hs _. eapply completes_weaken;
      [| |apply applyInterval_skeleton]; [intros s' Hs'; congruence|auto]. }
  pose proof (Hstep frets 0 Hskel I) as H0.
  destruct (applyInterval seq index offsets (rootFretOf seq frets) frets 0)
    as [frets1|e]; simpl in *; [|exact I].
  apply forEachM_completes with (Q := fun _ => True); auto.
  apply List.Forall_forall; auto.
Qed.

Lemma slice0_In {A} (l : list A) (e : Z) (x : A) : In x (slice0 l e) -> In x l.
Proof.
  unfold slice0. intros H.
  assert (Htake : forall n, In x (take n l) -> In x l).
  { intros n Hn. apply list_elem_of_In in Hn. apply list_elem_of_In.
    apply elem_of_take in Hn as (i & Hi & _).
    eapply list_elem_of_lookup_2; eauto. }
  destruct (e <? 0); eapply Htake; eauto.
Qed.

(** C5: every fret of the returned grid carries the note found at index
    (index of the open note of its string + fret number) mod 12 of the
    table, whatever the capo; this includes the duplicated frets, provided
    the row length is a multiple of 12 and the row shift keeps the string,
    number and note of the frets. *)
Theorem fret_note_determined (sequences0 : list Sequence)
    (tuningNotes : list Note) (capo : Z) (flipped : bool) (grid : list Fret) :
  length notes = 12%nat ->
  Z.of_nat NB_FRETS mod 12 = 0 ->
  (forall openStringNote, In openStringNote tuningNotes ->
                          In openStringNote notes) ->
  (forall frets fret, In fret (shiftSequencesDown frets) ->
                      exists fret0, In fret0 frets
                                    /\ skeleton fret = skeleton fret0) ->
  getFrets sequences0 tuningNotes capo flipped = Normal grid ->
  forall fret, In fret grid ->
    exists openStringNote,
      tuningNotes !! string_ fret = Some openStringNote
      /\ note fret
         = lookupZ notes
             ((indexOf notes (Some openStringNote) + number fret) mod 12).
Proof.
  intros Hlen HNB Htuning Hshift Hget fret Hfret.
  set (ok := fun (k : nat) (openStringNote : Note) (fr : Fret) =>
               string_ fr = k
               /\ note fr
                  = lookupZ notes
                      ((indexOf notes (Some openStringNote) + number fr)
                         mod 12)).
  assert (Hall : completes
            (Forall (fun y => exists k x, tuningNotes !! k = Some x
                                          /\ ok (0 + k)%nat x y))
            (fun _ => True) (allFrets sequences0 tuningNotes flipped)).
  { unfold allFrets. apply flatMapM_completes.
    intros k openStringNote Hk. simpl. unfold stringFrets.
    pose proof (markString_skeleton (sortedSequences sequences0)
                  (positionOffsets sequences0 tuningNotes flipped)
                  (newFrets openStringNote k)) as Hrow.
    destruct (markString _ _ (newFrets openStringNote k)) as [frets|e];
      simpl in *; [|exact I].
    assert (Hopen : In openStringNote notes).
    { apply Htuning, list_elem_of_In. eapply list_elem_of_lookup_2; eauto. }
    destruct (indexOf_present _ Hopen) as [Hio _]. rewrite Hlen in Hio.
    assert (Hfrets : forall fr, In fr frets -> ok k openStringNote fr).
    { intros fr Hfr.
      assert (Hsk : In (skeleton fr) (map skeleton (newFrets openStringNote k))).
      { rewrite <- Hrow. now apply in_map. }
      apply in_map_iff in Hsk as (fr0 & Hsk & Hfr0).
      apply newFrets_In in Hfr0 as (j & _ & Hs0 & Hn0 & Hnote0).
      assert (H1 : string_ fr = string_ fr0)
        by (change (fst (fst (skeleton fr)) = fst (fst (skeleton fr0)));
            now rewrite Hsk).
      assert (H2 : number fr = number fr0)
        by (change (snd (fst (skeleton fr)) = snd (fst (skeleton fr0)));
            now rewrite Hsk).
      assert (H3 : note fr = note fr0)
        by (change (snd (skeleton fr) = snd (skeleton fr0)); now rewrite Hsk).
      split; [congruence|].
      rewrite H3, H2, Hnote0, Hn0, Hlen.
      now rewrite Z.rem_mod_nonneg by lia. }
    unfold extendFrets. apply List.Forall_forall. intros fr Hfr.
    apply in_app_or in Hfr as [Hfr|Hfr]; [now apply Hfrets|].
    apply in_map_iff in Hfr as (fr0 & <- & Hfr0).
    apply slice0_In, Hfrets in Hfr0 as [Hs0 Hnote0].
    split; [exact Hs0|]. simpl. rewrite Hnote0. f_equal.
    rewrite Z.add_assoc.
    rewrite (Z.div_mod (Z.of_nat NB_FRETS) 12) at 1 by lia.
    rewrite HNB, Z.add_0_r, (Z.mul_comm 12). symmetry. apply Z.mod_add. lia. }
  unfold getFrets in Hget.
  destruct (allFrets sequences0 tuningNotes flipped) as [frets|e];
    simpl in *; [|discriminate].
  injection Hget as <-.
  unfold filterCapo in Hfret. apply in_map_iff in Hfret as (fr1 & <- & Hfr1).
  apply Hshift in Hfr1 as (fr0 & Hfr0 & Hsk).
  rewrite List.Forall_forall in Hall.
  destruct (Hall fr0 Hfr0) as (k & openStringNote & Hk & Hs0 & Hnote0).
  assert (H1 : string_ fr1 = string_ fr0)
    by (change (fst (fst (skeleton fr1)) = fst (fst (skeleton fr0)));
        now rewrite Hsk).
  assert (H2 : number fr1 = number fr0)
    by (change (snd (fst (skeleton fr1)) = snd (fst (skeleton fr0)));
        now rewrite Hsk).
  assert (H3 : note fr1 = note fr0)
    by (change (snd (skeleton fr1) = snd (skeleton fr0)); now rewrite Hsk).
  exists openStringNote. simpl. rewrite H1, H2, H3, Hs0. auto.
Qed.

(** ** The position window *)

(** C9: for a sequence whose model has a positions table and whose position
    is neither -1 nor 0, [shouldDisplayFret] answers whether the fret lies in
    the window [low + offset, high + offset]: the closed interval when
    [start < stop], the wrap-around union otherwise.  The window [10, 2] with
    offset 0 holds exactly the frets 10, 11, 0, 1 and 2 among 0..11. *)
Theorem shouldDisplayFret_window (fret : Z) (index : nat) (seq : Sequence)
    (offsets : list Z) (m : Model) (table : list (Z * Z)) (low high off : Z) :
  position seq <> -1 -> position seq <> 0 ->
  models (model seq) = Some m ->
  positions m = Some table ->
  lookupZ table (position seq - 1) = Some (low, high) ->
  offsets !! index = Some off ->
  (exists b : bool,
      shouldDisplayFret fret index seq offsets = Normal b
      /\ (b = true <->
          (low + off < high + off /\ low + off <= fret <= high + off)
          \/ (low + off >= high + off
              /\ (fret >= low + off \/ fret <= high + off))))
  /\ (forall f : Z, 0 <= f <= 11 ->
        isInPosition f (Some (10, 2)) (Some 0) = Normal true
        <-> In f [10; 11; 0; 1; 2]).
Proof.
  intros Hm1 H0 Hmodel Hpos Hentry Hoff. split.
  - unfold shouldDisplayFret, isInPosition.
    destruct (Z.eqb_spec (position seq) (-1)); [contradiction|].
    destruct (Z.eqb_spec (position seq) 0); [contradiction|].
    rewrite Hmodel, Hpos, Hentry, Hoff. eexists; split; [reflexivity|].
    destruct (Z.ltb_spec (low + off) (high + off)).
    + rewrite andb_true_iff, !Z.leb_le. lia.
    + rewrite orb_true_iff, !Z.leb_le. lia.
  - intros f Hf. unfold isInPosition. simpl.
    split.
    + intros H. injection H as H. rewrite orb_true_iff, !Z.leb_le in H.
      assert (Hc : f = 0 \/ f = 1 \/ f = 2 \/ f = 10 \/ f = 11) by lia.
      destruct Hc as [-> | [-> | [-> | [-> | ->]]]]; simpl; auto 10.
    + intros H. f_equal. rewrite orb_true_iff, !Z.leb_le.
      simpl in H. lia.
Qed.

(** ** The capo filter *)

Lemma filterCapo_twice (grid : list Fret) (K : Z) :
  0 <= K -> filterCapo (filterCapo grid 0) K = filterCapo grid K.
Proof.
  intros HK. unfold filterCapo. rewrite map_map. apply map_ext.
  intros fret; simpl.
  destruct (Z.ltb_spec (number fret) K), (Z.ltb_spec (number fret) 0);
    try reflexivity; lia.
Qed.

(** C8: for a capo [K >= 0], [getFrets] with capo [K] is [getFrets] with capo
    0 followed by the capo filter, and that filter empties the [sequences] of
    the frets numbered below [K], keeps their other fields, and keeps every
    other fret as it is. *)
Theorem getFrets_capo (sequences0 : list Sequence) (tuningNotes : list Note)
    (K : Z) (flipped : bool) :
  0 <= K ->
  getFrets sequences0 tuningNotes K flipped
    = (let! grid := getFrets sequences0 tuningNotes 0 flipped in
       Normal (filterCapo grid K))
  /\ (forall grid : list Fret,
        length (filterCapo grid K) = length grid
        /\ forall (i : nat) (fret : Fret),
            grid !! i = Some fret ->
            exists fret' : Fret,
              filterCapo grid K !! i = Some fret'
              /\ string_ fret' = string_ fret
              /\ number fret' = number fret
              /\ note fret' = note fret
              /\ isHighlighted fret' = isHighlighted fret
              /\ (number fret < K -> sequences fret' = [])
              /\ (K <= number fret -> fret' = fret)).
Proof.
  intros HK. split.
  - unfold getFrets.
    destruct (allFrets sequences0 tuningNotes flipped) as [frets|e]; simpl;
      [|reflexivity].
    now rewrite filterCapo_twice.
  - intros grid. unfold filterCapo. split; [apply length_map|].
    intros i fret Hi.
    eexists. split.
    + change (map ?f ?l) with (f <$> l). rewrite list_lookup_fmap, Hi.
      reflexivity.
    + simpl. repeat split; try reflexivity.
      * intros Hlt. destruct (Z.ltb_spec (number fret) K); [reflexivity|lia].
      * intros Hge. destruct (Z.ltb_spec (number fret) K); [lia|].
        now destruct fret.
Qed.

(** * Further properties of the module *)

(** ** The processing order *)

Lemma sort_insert_Permutation {A} (cmp : A -> A -> Z) (x : A) (l : list A) :
  Permutation (x :: l) (sort_insert cmp x l).
Proof.
  induction l as [|y l IH]; simpl; [reflexivity|].
  destruct (0 <? cmp x y); [|reflexivity].
  eapply perm_trans; [apply perm_swap|]. now apply perm_skip.
Qed.

Lemma filter_twice {A} (f : A -> bool) (l : list A) :
  List.filter f (List.filter f l) = List.filter f l.
Proof.
  induction l as [|x l IH]; [reflexivity|]. simpl.
  destruct (f x) eqn:Hx; [|exact IH]. simpl. now rewrite Hx, IH.
Qed.

Lemma filter_disjoint {A} (f g : A -> bool) (l : list A) :
  (forall x, f x = true -> g x = false) ->
  List.filter g (List.filter f l) = [].
Proof.
  intros Hfg. induction l as [|x l IH]; [reflexivity|]. simpl.
  destruct (f x) eqn:Hx; [|exact IH]. simpl. now rewrite (Hfg x Hx).
Qed.

Lemma filter_all {A} (f : A -> bool) (l : list A) :
  Forall (fun x => f x = true) l -> List.filter f l = l.
Proof.
  induction 1 as [|x l Hx _ IH]; [reflexivity|]. simpl. now rewrite Hx, IH.
Qed.

Lemma filter_none {A} (f : A -> bool) (l : list A) :
  Forall (fun x => f x = false) l -> List.filter f l = [].
Proof.
  induction 1 as [|x l Hx _ IH]; [reflexivity|]. simpl. now rewrite Hx.
Qed.

(** X1: the sort returns the sequences that are not intersected, in input
    order, followed by the intersected ones, in input order; nothing is lost
    or duplicated. *)
Theorem sortedSequences_stable_partition (sequences0 : list Sequence) :
  sortedSequences sequences0
  = List.filter (fun seq => negb (isIntersected seq)) sequences0
    ++ List.filter isIntersected sequences0
  /\ Permutation sequences0 (sortedSequences sequences0).
Proof.
  split; [apply sortedSequences_partition|].
  unfold sortedSequences, stable_sort.
  induction sequences0 as [|x l IH]; [reflexivity|]. simpl.
  eapply perm_trans; [apply perm_skip, IH|]. apply sort_insert_Permutation.
Qed.

(** X2: an input whose intersected sequences already come last is processed
    in input order, and sorting a second time changes nothing. *)
Theorem sortedSequences_grouped (plain crossed sequences0 : list Sequence) :
  Forall (fun seq => isIntersected seq = false) plain ->
  Forall (fun seq => isIntersected seq = true) crossed ->
  sortedSequences (plain ++ crossed) = plain ++ crossed
  /\ sortedSequences (sortedSequences sequences0) = sortedSequences sequences0.
Proof.
  intros Hplain Hcrossed. split.
  - rewrite sortedSequences_partition, !List.filter_app.
    rewrite (filter_all _ plain), (filter_none _ crossed),
      (filter_none _ plain), (filter_all _ crossed); auto.
    + now rewrite !app_nil_r.
    + eapply Forall_impl; [exact Hcrossed|].
      intros seq Hs. simpl in Hs. now rewrite Hs.
    + eapply Forall_impl; [exact Hplain|].
      intros seq Hs. simpl in Hs. now rewrite Hs.
  - rewrite !sortedSequences_partition, !List.filter_app, !filter_twice.
    rewrite (filter_disjoint isIntersected (fun seq => negb (isIntersected seq))),
      (filter_disjoint (fun seq => negb (isIntersected seq)) isIntersected).
    + now rewrite app_nil_r.
    + intros seq Hs. now apply negb_true_iff in Hs.
    + intros seq Hs. now rewrite Hs.
Qed.

(** ** Intervals *)

Lemma getInterval_mod (a b : Note) :
  In a notes -> In b notes ->
  getInterval (Some a) (Some b)
  = (indexOf notes (Some b) - indexOf notes (Some a))
      mod Z.of_nat (length notes).
Proof.
  intros Ha Hb.
  destruct (indexOf_present a Ha) as [Hia _].
  destruct (indexOf_present b Hb) as [Hib _].
  unfold getInterval.
  set (ia := indexOf notes (Some a)) in *.
  set (ib := indexOf notes (Some b)) in *.
  set (n := Z.of_nat (length notes)) in *.
  destruct (Z.leb_spec ia ib).
  - symmetry; apply Z.mod_small; lia.
  - replace (ib - ia) with (n - (ia - ib) + (-1) * n) by lia.
    rewrite Z.mod_add by lia. symmetry; apply Z.mod_small; lia.
Qed.

(** X3: going up [getInterval(a, b)] half-steps from [a] in the note table,
    wrapping at its end, lands on [b]; this holds for a table of any
    length. *)
Theorem getInterval_reaches (a b : Note) :
  In a notes -> In b notes ->
  lookupZ notes
    ((indexOf notes (Some a) + getInterval (Some a) (Some b))
       mod Z.of_nat (length notes))
  = Some b.
Proof.
  intros Ha Hb. rewrite getInterval_mod by assumption.
  destruct (indexOf_present a Ha) as [Hia _].
  destruct (indexOf_present b Hb) as [Hib Hlb].
  rewrite Z.add_mod_idemp_r by lia.
  replace (indexOf notes (Some a)
           + (indexOf notes (Some b) - indexOf notes (Some a)))
    with (indexOf notes (Some b)) by lia.
  now rewrite Z.mod_small by lia.
Qed.

(** X4: intervals add up modulo the length of the table: from [a] to [b] and
    then from [b] to [c] is the interval from [a] to [c]. *)
Theorem getInterval_additive (a b c : Note) :
  In a notes -> In b notes -> In c notes ->
  (getInterval (Some a) (Some b) + getInterval (Some b) (Some c))
    mod Z.of_nat (length notes)
  = getInterval (Some a) (Some c).
Proof.
  intros Ha Hb Hc. rewrite !getInterval_mod by assumption.
  destruct (indexOf_present a Ha) as [Hia _].
  rewrite <- Z.add_mod by lia. f_equal. lia.
Qed.

(** ** The flip flag *)

Lemma lookupZ_last {A} (l : list A) (x : A) :
  lookupZ (l ++ [x]) (Z.of_nat (length (l ++ [x])) - 1) = Some x.
Proof.
  unfold lookupZ. rewrite length_app. simpl.
  destruct (Z.ltb_spec (Z.of_nat (length l + 1) - 1) 0); [lia|].
  replace (Z.to_nat (Z.of_nat (length l + 1) - 1)) with (length l) by lia.
  apply list_lookup_middle. reflexivity.
Qed.

(** X5: the lowest tuning note, and with it every position offset, is
    unchanged when the tuning array is reversed and the flip flag is
    toggled. *)
Theorem positionOffsets_flip (sequences0 : list Sequence)
    (tuningNotes : list Note) (flipped : bool) :
  lowestTuningNote (rev tuningNotes) (negb flipped)
  = lowestTuningNote tuningNotes flipped
  /\ positionOffsets sequences0 (rev tuningNotes) (negb flipped)
     = positionOffsets sequences0 tuningNotes flipped.
Proof.
  assert (Hlow : lowestTuningNote (rev tuningNotes) (negb flipped)
                 = lowestTuningNote tuningNotes flipped).
  { unfold lowestTuningNote. destruct flipped; simpl.
    - destruct tuningNotes as [|x l] using rev_ind; [reflexivity|].
      rewrite rev_app_distr, lookupZ_last. reflexivity.
    - destruct tuningNotes as [|x l]; [reflexivity|].
      simpl rev. rewrite lookupZ_last. reflexivity. }
  split; [exact Hlow|]. unfold positionOffsets. now rewrite Hlow.
Qed.

(** ** The capo filter, continued *)

(** X6: two capo filters in a row act as one filter at the larger capo, and a
    capo at or below every fret number changes nothing. *)
Theorem filterCapo_compose (grid : list Fret) (K1 K2 : Z) :
  filterCapo (filterCapo grid K1) K2 = filterCapo grid (Z.max K1 K2)
  /\ ((forall fret, In fret grid -> K1 <= number fret) ->
      filterCapo grid K1 = grid).
Proof.
  split.
  - unfold filterCapo. rewrite map_map. apply map_ext. intros fret; simpl.
    destruct (Z.ltb_spec (number fret) K1), (Z.ltb_spec (number fret) K2),
      (Z.ltb_spec (number fret) (Z.max K1 K2)); try reflexivity; lia.
  - intros Hall. unfold filterCapo.
    rewrite <- (map_id grid) at 2. apply map_ext_in. intros fret Hfret.
    specialize (Hall fret Hfret).
    destruct (Z.ltb_spec (number fret) K1); [lia|]. now destruct fret.
Qed.

(** X7: in the grid [getFrets] returns, every fret numbered below the capo
    has an empty [sequences] list, whatever the row shift does. *)
Theorem getFrets_below_capo (sequences0 : list Sequence)
    (tuningNotes : list Note) (capo : Z) (flipped : bool) (grid : list Fret) :
  getFrets sequences0 tuningNotes capo flipped = Normal grid ->
  forall fret, In fret grid -> number fret < capo -> sequences fret = [].
Proof.
  unfold getFrets.
  destruct (allFrets sequences0 tuningNotes flipped) as [frets|e]; simpl;
    [|discriminate].
  intros [= <-] fret Hfret Hlt. unfold filterCapo in Hfret.
  apply in_map_iff in Hfret as (fret0 & <- & _). simpl in *.
  destruct (Z.ltb_spec (number fret0) capo); [reflexivity|lia].
Qed.

(** ** The position window, continued *)

(** X8: [shouldDisplayFret] throws exactly when the position is -1 and the
    sequence has no [customFretBounds], or the position is neither -1 nor 0
    and either the model is not in the registry or its positions table has
    no entry [position - 1]; the fret, the index and the offsets play no
    part in it. *)
Theorem shouldDisplayFret_throws_iff (fret : Z) (index : nat) (seq : Sequence)
    (offsets : list Z) :
  (exists e, shouldDisplayFret fret index seq offsets = Throw e)
  <-> (position seq = -1 /\ customFretBounds seq = None)
      \/ (position seq <> -1 /\ position seq <> 0
          /\ (models (model seq) = None
              \/ exists m table,
                   models (model seq) = Some m
                   /\ positions m = Some table
                   /\ lookupZ table (position seq - 1) = None)).
Proof.
  unfold shouldDisplayFret, isInPosition.
  destruct (Z.eqb_spec (position seq) (-1)) as [Hm1|Hm1].
  { destruct (customFretBounds seq) as [[low high]|].
    - split; [intros [e He]; discriminate|].
      intros [[_ Hb]|(Hp & _)]; [discriminate|contradiction].
    - split; [intros _; now left|intros _; eauto]. }
  destruct (Z.eqb_spec (position seq) 0) as [H0|H0].
  { split; [intros [e He]; discriminate|].
    intros [[Hp _]|(_ & Hp & _)]; contradiction. }
  destruct (models (model seq)) as [m|].
  - destruct (positions m) as [table|] eqn:Hpos.
    + destruct (lookupZ table (position seq - 1)) as [[low high]|] eqn:Hentry.
      * split.
        -- intros [e He]. destruct (offsets !! index); discriminate.
        -- intros [[Hp _]|(_ & _ & [Hnone|(m' & table' & Hm' & Hpos' & Hnone)])];
             [contradiction|discriminate|].
           injection Hm' as <-. rewrite Hpos in Hpos'. injection Hpos' as <-.
           congruence.
      * split; [|intros _; eauto].
        intros _. right. repeat split; auto. right. exists m, table. auto.
    + split; [intros [e He]; discriminate|].
      intros [[Hp _]|(_ & _ & [Hnone|(m' & table' & Hm' & Hpos' & _)])];
        [contradiction|discriminate|].
      injection Hm' as <-. congruence.
  - split; [|intros _; eauto]. intros _. right. repeat split; auto.
Qed.

(** X9: a window whose start is not below its stop excludes exactly the frets
    strictly between stop and start, so a window with equal bounds shows
    every fret; and shifting the window by the offset is the same as shifting
    the fret back. *)
Theorem isInPosition_wrapped (fretNumber low high off : Z) :
  (low >= high ->
   (isInPosition fretNumber (Some (low, high)) (Some off) = Normal false
    <-> high + off < fretNumber < low + off))
  /\ isInPosition fretNumber (Some (low, low)) (Some off) = Normal true
  /\ isInPosition fretNumber (Some (low, high)) (Some off)
     = isInPosition (fretNumber - off) (Some (low, high)) (Some 0).
Proof.
  unfold isInPosition. split; [|split].
  - intros Hwrap.
    destruct (Z.ltb_spec (low + off) (high + off)) as [Hlt|Hge]; [lia|].
    split.
    + intros [= Hf]. apply orb_false_iff in Hf as [H1 H2].
      apply Z.leb_gt in H1. apply Z.leb_gt in H2. lia.
    + intros Hin. f_equal. apply orb_false_iff. split; apply Z.leb_gt; lia.
  - f_equal. rewrite Z.ltb_irrefl. apply orb_true_iff.
    destruct (Z.le_gt_cases (low + off) fretNumber) as [Hle|Hgt].
    + left. now apply Z.leb_le.
    + right. apply Z.leb_le. lia.
  - f_equal. rewrite !Z.add_0_r.
    destruct (Z.ltb_spec (low + off) (high + off)) as [Hlt|Hge],
      (Z.ltb_spec low high) as [Hlt'|Hge']; try lia;
      f_equal; apply eq_true_iff_eq; rewrite !Z.leb_le; lia.
Qed.

(** ** Invariants of the marking pass *)

Lemma markFret_cases (seq : Sequence) (index : nat) (offsets : list Z)
    (i f : Z) (frets frets' : list Fret) :
  markFret seq index offsets i frets f = Normal frets' ->
  (shouldDisplayFret f index seq offsets = Normal false /\ frets' = frets)
  \/ (shouldDisplayFret f index seq offsets = Normal true
      /\ exists fret, lookupZ frets f = Some fret
                      /\ frets' = alter (pushTag seq index i) (Z.to_nat f) frets).
Proof.
  unfold markFret.
  destruct (shouldDisplayFret f index seq offsets) as [[|]|e]; simpl;
    [|intros [= <-]; auto|discriminate].
  destruct (lookupZ frets f) as [fret|]; [|discriminate].
  intros [= <-]. right. eauto.
Qed.

Lemma applyInterval_cases (seq : Sequence) (index : nat) (offsets : list Z)
    (root i : Z) (frets frets' : list Fret) :
  applyInterval seq index offsets root frets i = Normal frets' ->
  frets' = frets
  \/ exists frets1,
      markFret seq index offsets i frets (root + i) = Normal frets1
      /\ markFret seq index offsets i frets1
           (Z.rem (root + i + 12) (Z.of_nat NB_FRETS)) = Normal frets'.
Proof.
  unfold applyInterval. simpl forEachM.
  assert (Hloop :
    (let! s' := markFret seq index offsets i frets (root + i) in
     let! s'0 := markFret seq index offsets i s'
                   (Z.rem (root + i + 12) (Z.of_nat NB_FRETS)) in
     Normal s'0) = Normal frets' ->
    exists frets1,
      markFret seq index offsets i frets (root + i) = Normal frets1
      /\ markFret seq index offsets i frets1
           (Z.rem (root + i + 12) (Z.of_nat NB_FRETS)) = Normal frets').
  { destruct (markFret seq index offsets i frets (root + i))
      as [frets1|e]; simpl; [|discriminate].
    destruct (markFret seq index offsets i frets1
                (Z.rem (root + i + 12) (Z.of_nat NB_FRETS)))
      as [frets2|e] eqn:H2; simpl; [|discriminate].
    intros [= <-]. eauto. }
  destruct (isIntersected seq); [|intros H; right; now apply Hloop].
  destruct (lookupZ frets (root + i)) as [fret|]; [|discriminate].
  destruct (length (sequences fret) =? 0)%nat.
  - intros [= <-]. now left.
  - intros H. right. now apply Hloop.
Qed.

Lemma lookupZ_alter (g : Fret -> Fret) (frets : list Fret) (f f' : Z) :
  0 <= f ->
  lookupZ (alter g (Z.to_nat f) frets) f'
  = if f' =? f then g <$> lookupZ frets f' else lookupZ frets f'.
Proof.
  intros Hf. unfold lookupZ.
  destruct (Z.ltb_spec f' 0) as [Hneg|Hpos].
  - now destruct (f' =? f).
  - destruct (Z.eqb_spec f' f) as [->|Hne].
    + apply list_lookup_alter_eq.
    + apply list_lookup_alter_ne. lia.
Qed.

Section Invariant.

(** A property [P f fret] of the fret at the position [f] of the row that
    every push of a justified tag keeps is kept by the whole marking of a
    string. *)
Variable P : Z -> Fret -> Prop.
Variable sorted : list Sequence.
Variable offsets : list Z.
Variable frets0 : list Fret.

Hypothesis push_keeps :
  forall index seq i f fret,
    sorted !! index = Some seq ->
    In i (0 :: intervalsForSequence seq) ->
    f = rootFretOf seq frets0 + i
    \/ f = Z.rem (rootFretOf seq frets0 + i + 12) (Z.of_nat NB_FRETS) ->
    shouldDisplayFret f index seq offsets = Normal true ->
    P f fret -> P f (pushTag seq index i fret).

Lemma markFret_rowKeeps (seq : Sequence) (index : nat) (i root f : Z)
    (frets frets' : list Fret) :
  sorted !! index = Some seq ->
  In i (0 :: intervalsForSequence seq) ->
  root = rootFretOf seq frets0 ->
  f = root + i \/ f = Z.rem (root + i + 12) (Z.of_nat NB_FRETS) ->
  rowKeeps P frets0 frets ->
  markFret seq index offsets i frets f = Normal frets' ->
  rowKeeps P frets0 frets'.
Proof using push_keeps.
  intros Hseq Hi -> Hf [Hsk HP] Hmark.
  destruct (markFret_cases _ _ _ _ _ _ _ Hmark)
    as [[_ ->]|(Hshow & fret & Hfret & ->)]; [now split|].
  pose proof (lookupZ_Some_range _ _ _ Hfret) as Hrange.
  split; [now rewrite skeleton_alter|].
  intros f' fret'. rewrite lookupZ_alter by lia.
  destruct (Z.eqb_spec f' f) as [->|Hne]; [|apply HP].
  rewrite Hfret. intros [= <-]. eapply push_keeps; eauto.
Qed.

Lemma applyInterval_rowKeeps (seq : Sequence) (index : nat) (i : Z)
    (frets frets' : list Fret) :
  sorted !! index = Some seq ->
  In i (0 :: intervalsForSequence seq) ->
  rowKeeps P frets0 frets ->
  applyInterval seq index offsets (rootFretOf seq frets0) frets i
    = Normal frets' ->
  rowKeeps P frets0 frets'.
Proof using push_keeps.
  intros Hseq Hi Hrow Happ.
  destruct (applyInterval_cases _ _ _ _ _ _ _ Happ)
    as [->|(frets1 & H1 & H2)]; [exact Hrow|].
  eapply markFret_rowKeeps in H1; eauto.
  eapply markFret_rowKeeps in H2; eauto.
Qed.

Lemma markString_rowKeeps :
  (forall f fret, lookupZ frets0 f = Some fret -> P f fret) ->
  completes (rowKeeps P frets0) (fun _ => True) (markString sorted offsets frets0).
Proof using push_keeps.
  intros H0. unfold markString.
  apply forEachM_completes
    with (Q := fun e : nat * Sequence => sorted !! fst e = Some (snd e));
    [|now split|apply indexed_Forall].
  intros frets [index seq] Hrow Hseq. simpl in Hseq. unfold markSequence.
  rewrite (rootFretOf_skeleton seq frets frets0 (proj1 Hrow)).
  assert (Hstep : forall s i,
             rowKeeps P frets0 s -> In i (0 :: intervalsForSequence seq) ->
             completes (rowKeeps P frets0) (fun _ => True)
               (applyInterval seq index offsets (rootFretOf seq frets0) s i)).
  { intros s i Hs Hi.
    destruct (applyInterval seq index offsets (rootFretOf seq frets0) s i)
      as [s'|e] eqn:Happ; simpl; [|exact I].
    eapply applyInterval_rowKeeps; eauto. }
  pose proof (Hstep frets 0 Hrow (or_introl eq_refl)) as Hroot.
  destruct (applyInterval seq index offsets (rootFretOf seq frets0) frets 0)
    as [frets1|e]; simpl in *; [|exact I].
  apply forEachM_completes
    with (Q := fun i => In i (0 :: intervalsForSequence seq)); auto.
  apply List.Forall_forall. intros i Hi. now right.
Qed.

End Invariant.

Lemma newFrets_lookupZ (openStringNote : Note) (stringNumber : nat) (f : Z)
    (fret : Fret) :
  lookupZ (newFrets openStringNote stringNumber) f = Some fret ->
  0 <= f < Z.of_nat NB_FRETS
  /\ fret = {| string_ := stringNumber;
               number := f;
               note := lookupZ notes
                         (Z.rem (indexOf notes (Some openStringNote) + f)
                                (Z.of_nat (length notes)));
               sequences := [];
               isHighlighted := false |}.
Proof.
  intros Hf. pose proof (lookupZ_Some_range _ _ _ Hf) as Hr.
  rewrite newFrets_length in Hr. split; [exact Hr|].
  unfold lookupZ in Hf. destruct (Z.ltb_spec f 0); [lia|].
  rewrite newFrets_lookup in Hf by lia. injection Hf as <-.
  now rewrite Z2Nat.id by lia.
Qed.

(** X10: after the marking of a string, every tag on a fret is justified:
    its index is a position of the processing order, the sequence there
    generates its interval (or it is the root), the fret is the target fret
    of that interval or its octave duplicate, and the window filter of the
    sequence displays the fret.  The marking changes neither the length of
    the row nor the string, number and note of a fret. *)
Theorem marks_are_justified (sorted : list Sequence) (offsets : list Z)
    (openStringNote : Note) (stringNumber : nat) (frets' : list Fret) :
  markString sorted offsets (newFrets openStringNote stringNumber)
    = Normal frets' ->
  map skeleton frets' = map skeleton (newFrets openStringNote stringNumber)
  /\ forall f tag,
      In tag (tagsAt frets' f) ->
      0 <= f < Z.of_nat NB_FRETS
      /\ justified sorted offsets
           (fun seq => rootFretOf seq (newFrets openStringNote stringNumber))
           f tag.
Proof.
  intros Hmark.
  pose proof (markString_rowKeeps
                (fun f fret =>
                   forall tag, In tag (sequences fret) ->
                     justified sorted offsets
                       (fun seq => rootFretOf seq
                                     (newFrets openStringNote stringNumber))
                       f tag)
                sorted offsets (newFrets openStringNote stringNumber)) as Hinv.
  rewrite Hmark in Hinv. simpl in Hinv. destruct Hinv as [Hsk HP].
  - intros index seq i f fret Hseq Hi Hf Hshow Hold tag Htag. simpl in Htag.
    apply in_app_or in Htag as [Htag|[<-|[]]]; [now apply Hold|].
    exists seq. simpl. auto.
  - intros f fret Hf tag Htag.
    apply newFrets_lookupZ in Hf as [_ ->]. destruct Htag.
  - split; [exact Hsk|]. intros f tag Htag. unfold tagsAt in Htag.
    destruct (lookupZ frets' f) as [fret|] eqn:Hf; [|destruct Htag].
    split; [|now apply (HP f fret)].
    apply lookupZ_Some_range in Hf.
    now rewrite (skeleton_length _ _ Hsk), newFrets_length in Hf.
Qed.

(** X11: after the marking of a string, a fret is highlighted exactly when
    it carries a tag whose interval is the highlighted interval of the
    sequence processed at the position the tag names. *)
Theorem highlight_iff_tag (sorted : list Sequence) (offsets : list Z)
    (openStringNote : Note) (stringNumber : nat) (frets' : list Fret) :
  markString sorted offsets (newFrets openStringNote stringNumber)
    = Normal frets' ->
  forall f fret,
    lookupZ frets' f = Some fret ->
    (isHighlighted fret = true
     <-> exists tag seq,
           In tag (sequences fret)
           /\ sorted !! index tag = Some seq
           /\ highlightedInterval seq = Some (interval tag)).
Proof.
  intros Hmark.
  pose proof (markString_rowKeeps
                (fun _ fret =>
                   isHighlighted fret = true
                   <-> exists tag seq,
                         In tag (sequences fret)
                         /\ sorted !! index tag = Some seq
                         /\ highlightedInterval seq = Some (interval tag))
                sorted offsets (newFrets openStringNote stringNumber)) as Hinv.
  rewrite Hmark in Hinv. simpl in Hinv. apply Hinv.
  - intros index seq i f fret Hseq _ _ _ Hold. simpl.
    unfold isHighlightedInterval.
    destruct (highlightedInterval seq) as [h|] eqn:Hh.
    + destruct (Z.eqb_spec i h) as [->|Hne].
      * split; [intros _|reflexivity].
        exists {| index := index; interval := h |}, seq. simpl.
        split; [apply in_or_app; right; now left|auto].
      * rewrite Hold. split.
        -- intros (tag & seq' & Htag & Hs).
           exists tag, seq'. split; [apply in_or_app; now left|exact Hs].
        -- intros (tag & seq' & Htag & Hs & Hi).
           apply in_app_or in Htag as [Htag|[<-|[]]]; [eauto|].
           simpl in *. congruence.
    + rewrite Hold. split.
      * intros (tag & seq' & Htag & Hs).
        exists tag, seq'. split; [apply in_or_app; now left|exact Hs].
      * intros (tag & seq' & Htag & Hs & Hi).
        apply in_app_or in Htag as [Htag|[<-|[]]]; [eauto|].
        simpl in *. congruence.
  - intros f fret Hf. apply newFrets_lookupZ in Hf as [_ ->]. simpl.
    split; [discriminate|]. intros (tag & _ & [] & _).
Qed.

(** ** Intersected sequences alone *)

Lemma markString_intersected_only (sorted : list Sequence) (offsets : list Z)
    (frets0 : list Fret) :
  (forall seq, In seq sorted -> isIntersected seq = true) ->
  (forall f fret, lookupZ frets0 f = Some fret -> sequences fret = []) ->
  completes (fun frets => frets = frets0) (fun _ => True)
    (markString sorted offsets frets0).
Proof.
  intros Hall Hempty. unfold markString.
  apply forEachM_completes
    with (Q := fun e : nat * Sequence => In (snd e) sorted); [|reflexivity|].
  - intros frets [index seq] -> Hseq. simpl in Hseq. unfold markSequence.
    assert (Hstep : forall s i,
               s = frets0 -> True ->
               completes (fun frets => frets = frets0) (fun _ => True)
                 (applyInterval seq index offsets (rootFretOf seq frets0) s i)).
    { intros s i -> _. unfold applyInterval. rewrite (Hall seq Hseq).
      destruct (lookupZ frets0 (rootFretOf seq frets0 + i)) as [fret|] eqn:Hf;
        [|exact I].
      now rewrite (Hempty _ _ Hf). }
    pose proof (Hstep frets0 0 eq_refl I) as Hroot.
    destruct (applyInterval seq index offsets (rootFretOf seq frets0) frets0 0)
      as [frets1|e]; simpl in *; [|exact I].
    apply forEachM_completes with (Q := fun _ => True); auto.
    apply List.Forall_forall. auto.
  - eapply Forall_impl; [apply indexed_Forall|].
    intros [index seq] Hl. simpl in *. apply list_elem_of_In.
    eapply list_elem_of_lookup_2; eauto.
Qed.

Lemma extendFrets_untagged (openStringNote : Note) (stringNumber : nat) :
  Forall untagged (extendFrets (newFrets openStringNote stringNumber)).
Proof.
  assert (Hnew : forall fret, In fret (newFrets openStringNote stringNumber) ->
                              untagged fret).
  { unfold newFrets. intros fret Hfret.
    apply in_map_iff in Hfret as (k & <- & _). now split. }
  unfold extendFrets. apply Forall_app. split; apply List.Forall_forall.
  - exact Hnew.
  - intros fret Hfret. apply in_map_iff in Hfret as (fret0 & <- & Hfret0).
    apply slice0_In, Hnew in Hfret0. exact Hfret0.
Qed.

(** X12: when every sequence is intersected (in particular when there is no
    sequence), a call that returns leaves the whole grid without tag and
    without highlight: an intersected sequence only marks frets that already
    carry a tag. *)
Theorem intersected_alone_mark_nothing (sequences0 : list Sequence)
    (tuningNotes : list Note) (flipped : bool) (frets : list Fret) :
  (forall seq, In seq sequences0 -> isIntersected seq = true) ->
  allFrets sequences0 tuningNotes flipped = Normal frets ->
  Forall untagged frets.
Proof.
  intros Hall Hget.
  pose proof (flatMapM_completes (fun _ _ => untagged) (fun _ => True)
                (stringFrets (sortedSequences sequences0)
                   (positionOffsets sequences0 tuningNotes flipped))
                tuningNotes 0%nat) as Hgrid.
  unfold allFrets in Hget. rewrite Hget in Hgrid. simpl in Hgrid.
  eapply Forall_impl; [apply Hgrid|].
  - intros k openStringNote _. unfold stringFrets.
    pose proof (markString_intersected_only (sortedSequences sequences0)
                  (positionOffsets sequences0 tuningNotes flipped)
                  (newFrets openStringNote k)) as Hrow.
    destruct (markString _ _ (newFrets openStringNote k)) as [row|e];
      simpl in *; [|exact I].
    rewrite Hrow.
    + apply extendFrets_untagged.
    + intros seq Hseq. apply Hall. now apply sortedSequences_In.
    + intros f fret Hf. now apply newFrets_lookupZ in Hf as [_ ->].
  - intros fret (_ & _ & _ & Hfret). exact Hfret.
Qed.

(** ** Calls that return *)

Lemma shouldDisplayFret_wellConfigured (f : Z) (index : nat) (seq : Sequence)
    (offsets : list Z) :
  wellConfigured seq ->
  exists display, shouldDisplayFret f index seq offsets = Normal display.
Proof.
  unfold wellConfigured, shouldDisplayFret, isInPosition.
  intros [(Hp & [low high] & Hb)|[Hp|(Hp & m & Hm & Hpos)]].
  - rewrite Hp, Hb. simpl. eauto.
  - rewrite Hp. simpl. eauto.
  - destruct (Z.eqb_spec (position seq) (-1)); [contradiction|].
    destruct (position seq =? 0); [eauto|].
    rewrite Hm.
    destruct Hpos as [->|(table & [low high] & -> & ->)]; [eauto|].
    destruct (offsets !! index); eauto.
Qed.

Lemma markFret_config (seq : Sequence) (index : nat) (offsets : list Z)
    (i f : Z) (frets : list Fret) :
  wellConfigured seq ->
  completes (fun _ => True) (fun e => exists k, e = TypeError_fret k)
    (markFret seq index offsets i frets f).
Proof.
  intros Hseq. unfold markFret.
  destruct (shouldDisplayFret_wellConfigured f index seq offsets Hseq)
    as [[|] ->]; simpl; [|exact I].
  destruct (lookupZ frets f); simpl; eauto.
Qed.

Lemma applyInterval_config (seq : Sequence) (index : nat) (offsets : list Z)
    (root i : Z) (frets : list Fret) :
  wellConfigured seq ->
  completes (fun _ => True) (fun e => exists k, e = TypeError_fret k)
    (applyInterval seq index offsets root frets i).
Proof.
  intros Hseq.
  assert (Hloop :
    completes (fun _ => True) (fun e => exists k, e = TypeError_fret k)
      (forEachM (markFret seq index offsets i)
         [root + i; Z.rem (root + i + 12) (Z.of_nat NB_FRETS)] frets)).
  { apply forEachM_completes with (Q := fun _ => True);
      [intros s f _ _; now apply markFret_config|exact I
      |apply List.Forall_forall; auto]. }
  unfold applyInterval. destruct (isIntersected seq); [|exact Hloop].
  destruct (lookupZ frets (root + i)) as [fret|]; simpl; [|eauto].
  destruct (length (sequences fret) =? 0)%nat; [exact I|exact Hloop].
Qed.

Lemma markString_config (sorted : list Sequence) (offsets : list Z)
    (frets0 : list Fret) :
  (forall seq, In seq sorted -> wellConfigured seq) ->
  completes (fun _ => True) (fun e => exists k, e = TypeError_fret k)
    (markString sorted offsets frets0).
Proof.
  intros Hall. unfold markString.
  apply forEachM_completes
    with (Q := fun e : nat * Sequence => In (snd e) sorted); [|exact I|].
  - intros frets [index seq] _ Hseq. simpl in Hseq. unfold markSequence.
    pose proof (applyInterval_config seq index offsets (rootFretOf seq frets)
                  0 frets (Hall seq Hseq)) as Hroot.
    destruct (applyInterval seq index offsets (rootFretOf seq frets) frets 0)
      as [frets1|e]; simpl in *; [|exact Hroot].
    apply forEachM_completes with (Q := fun _ => True);
      [intros s i _ _; apply applyInterval_config; now apply Hall|exact I
      |apply List.Forall_forall; auto].
  - eapply Forall_impl; [apply indexed_Forall|].
    intros [index seq] Hl. simpl in *. apply list_elem_of_In.
    eapply list_elem_of_lookup_2; eauto.
Qed.

(** X13: [getFrets] returns a grid, without any exception, when the table
    has twelve notes, the row has at least twelve frets, every tuning note
    and tonality is in the table, every sequence is well configured (custom
    bounds present when the position is -1, or position 0, or a registered
    model without positions table or with the entry [position - 1]), and
    every generated interval keeps its target fret inside the row. *)
Theorem getFrets_returns (sequences0 : list Sequence)
    (tuningNotes : list Note) (capo : Z) (flipped : bool) :
  length notes = 12%nat -> (12 <= NB_FRETS)%nat ->
  (forall openStringNote, In openStringNote tuningNotes ->
                          In openStringNote notes) ->
  (forall seq, In seq sequences0 ->
               In (tonality seq) notes /\ wellConfigured seq) ->
  (forall stringNumber openStringNote seq i,
      tuningNotes !! stringNumber = Some openStringNote ->
      In seq sequences0 -> In i (intervalsForSequence seq) ->
      0 <= rootFretOf seq (newFrets openStringNote stringNumber) + i
        <= Z.of_nat NB_FRETS - 1) ->
  exists grid, getFrets sequences0 tuningNotes capo flipped = Normal grid.
Proof.
  intros Hlen HNB Htuning Hseqs Hrange.
  pose proof (flatMapM_completes (fun _ _ _ => True) (fun _ => False)
                (stringFrets (sortedSequences sequences0)
                   (positionOffsets sequences0 tuningNotes flipped))
                tuningNotes 0%nat) as Hall.
  match type of Hall with ?H -> _ => assert (Hstrings : H) end.
  { intros k openStringNote Hk. simpl. unfold stringFrets.
    pose proof (markString_in_row (sortedSequences sequences0)
                  (positionOffsets sequences0 tuningNotes flipped)
                  (newFrets openStringNote k)
                  (newFrets_length openStringNote k)) as Hrow.
    pose proof (markString_config (sortedSequences sequences0)
                  (positionOffsets sequences0 tuningNotes flipped)
                  (newFrets openStringNote k)) as Hcfg.
    match type of Hrow with ?H -> _ => assert (Hr : H) end.
    { intros seq i Hseq Hi. apply sortedSequences_In in Hseq.
      destruct Hi as [<-|Hi].
      - assert (Hopen : In openStringNote notes).
        { apply Htuning, list_elem_of_In. eapply list_elem_of_lookup_2; eauto. }
        pose proof (rootFretOf_in_first_octave seq openStringNote k Hlen HNB
                      Hopen (proj1 (Hseqs seq Hseq))). lia.
      - specialize (Hrange k openStringNote seq i Hk Hseq Hi). lia. }
    specialize (Hrow Hr).
    match type of Hcfg with ?H -> _ => assert (Hc : H) end.
    { intros seq Hseq. apply sortedSequences_In in Hseq. now apply Hseqs. }
    specialize (Hcfg Hc).
    destruct (markString _ _ (newFrets openStringNote k)) as [frets|e];
      simpl in *.
    - apply List.Forall_forall. auto.
    - destruct Hcfg as [j ->]. exact Hrow. }
  specialize (Hall Hstrings). unfold getFrets, allFrets.
  destruct (flatMapM _ tuningNotes 0%nat) as [frets|e]; simpl in *;
    [eauto|contradiction].
Qed.

(** ** The root fret and the notes under the tags *)

Lemma findIndex_from_exact {A} (p : A -> bool) (l : list A) (k : nat) (x : A)
    (i : Z) :
  l !! k = Some x -> p x = true ->
  (forall j y, (j < k)%nat -> l !! j = Some y -> p y = false) ->
  findIndex_from p l i = i + Z.of_nat k.
Proof.
  revert k i; induction l as [|y l IH]; intros k i Hk Hp Hbefore;
    [discriminate|].
  destruct k as [|k].
  - simpl in Hk. injection Hk as ->. simpl. rewrite Hp. lia.
  - simpl. rewrite (Hbefore 0%nat y) by (simpl; auto; lia).
    rewrite (IH k (i + 1) Hk Hp); [lia|].
    intros j z Hj Hz. apply (Hbefore (S j) z); [lia|exact Hz].
Qed.

Lemma lookupZ_NoDup (i j : Z) (n : Note) :
  NoDup notes ->
  lookupZ notes i = Some n -> lookupZ notes j = Some n -> i = j.
Proof.
  intros Hnd Hi Hj.
  pose proof (lookupZ_Some_range _ _ _ Hi).
  pose proof (lookupZ_Some_range _ _ _ Hj).
  unfold lookupZ in Hi, Hj.
  destruct (Z.ltb_spec i 0); [lia|]. destruct (Z.ltb_spec j 0); [lia|].
  pose proof (NoDup_lookup _ _ _ _ Hnd Hi Hj). lia.
Qed.

Lemma rootFretOf_is_getInterval_aux (seq : Sequence) (openStringNote : Note)
    (stringNumber : nat) :
  NoDup notes -> (length notes <= NB_FRETS)%nat ->
  In openStringNote notes -> In (tonality seq) notes ->
  rootFretOf seq (newFrets openStringNote stringNumber)
  = (indexOf notes (Some (tonality seq))
     - indexOf notes (Some openStringNote)) mod Z.of_nat (length notes).
Proof.
  intros Hnd HNB Hopen Hton.
  destruct (indexOf_present _ Hopen) as [Hio _].
  destruct (indexOf_present _ Hton) as [Hit Hlt].
  set (io := indexOf notes (Some openStringNote)) in *.
  set (it := indexOf notes (Some (tonality seq))) in *.
  set (n := Z.of_nat (length notes)) in *.
  assert (Hk : 0 <= (it - io) mod n < n) by (apply Z.mod_pos_bound; lia).
  unfold rootFretOf, findIndex.
  rewrite (findIndex_from_exact (noteIs (tonality seq)) _
             (Z.to_nat ((it - io) mod n))
             {| string_ := stringNumber;
                number := Z.of_nat (Z.to_nat ((it - io) mod n));
                note := lookupZ notes
                          (Z.rem (io + Z.of_nat (Z.to_nat ((it - io) mod n))) n);
                sequences := [];
                isHighlighted := false |}).
  - lia.
  - apply newFrets_lookup. lia.
  - unfold noteIs. simpl. rewrite Z2Nat.id by lia.
    rewrite Z.rem_mod_nonneg by lia.
    rewrite Z.add_mod_idemp_r by lia.
    replace (io + (it - io)) with it by lia.
    rewrite Z.mod_small by lia. rewrite Hlt. apply String.eqb_refl.
  - intros j fret Hj Hfret.
    rewrite newFrets_lookup in Hfret by lia. injection Hfret as <-.
    unfold noteIs. simpl. fold io. fold n.
    destruct (lookupZ notes (Z.rem (io + Z.of_nat j) n)) as [x|] eqn:Hx;
      [|reflexivity].
    destruct (String.eqb_spec x (tonality seq)) as [Heq|]; [|reflexivity].
    exfalso. rewrite Heq in Hx.
    pose proof (lookupZ_NoDup _ _ _ Hnd Hx Hlt) as Hsame.
    rewrite Z.rem_mod_nonneg in Hsame by lia.
    assert (Hj' : (it - io) mod n = Z.of_nat j).
    { rewrite <- Hsame. rewrite Zminus_mod_idemp_l.
      replace (io + Z.of_nat j - io) with (Z.of_nat j) by lia.
      apply Z.mod_small. lia. }
    lia.
Qed.

(** X14: on a string whose open note is in the table, the root fret of a
    sequence whose tonality is in the table is [getInterval(open note,
    tonality)], when the table has no repeated note and the row is at least as
    long as the table; the position offset of a sequence is thus its root
    fret on the lowest string. *)
Theorem rootFretOf_is_getInterval (seq : Sequence) (openStringNote : Note)
    (stringNumber : nat) :
  NoDup notes -> (length notes <= NB_FRETS)%nat ->
  In openStringNote notes -> In (tonality seq) notes ->
  rootFretOf seq (newFrets openStringNote stringNumber)
  = getInterval (Some openStringNote) (Some (tonality seq)).
Proof.
  intros Hnd HNB Hopen Hton. rewrite getInterval_mod by assumption.
  now apply rootFretOf_is_getInterval_aux.
Qed.

Lemma skeleton_lookupZ (frets frets0 : list Fret) (f : Z) (fret : Fret) :
  map skeleton frets = map skeleton frets0 ->
  lookupZ frets f = Some fret ->
  exists fret0, lookupZ frets0 f = Some fret0 /\ skeleton fret = skeleton fret0.
Proof.
  intros Hsk Hf. unfold lookupZ in *. destruct (f <? 0); [discriminate|].
  generalize (Z.to_nat f) Hf. clear Hf. revert frets0 Hsk.
  induction frets as [|x l IH]; intros [|y l0] Hsk k Hk; try discriminate.
  change (skeleton x :: map skeleton l = skeleton y :: map skeleton l0) in Hsk.
  destruct k as [|k].
  - simpl in *. injection Hk as <-. exists y. split; [reflexivity|congruence].
  - simpl in *. apply IH; [congruence|exact Hk].
Qed.

(** X15: with a table of twelve distinct notes and a row whose length is a
    multiple of 12, every tag [{index, interval}] of a marked string sits on a
    fret whose note is [interval] half-steps above the tonality of the
    sequence processed at position [index]. *)
Theorem tagged_fret_note (sorted : list Sequence) (offsets : list Z)
    (openStringNote : Note) (stringNumber : nat) (frets' : list Fret) :
  length notes = 12%nat -> NoDup notes ->
  (12 <= NB_FRETS)%nat -> Z.of_nat NB_FRETS mod 12 = 0 ->
  In openStringNote notes ->
  (forall seq, In seq sorted -> In (tonality seq) notes) ->
  markString sorted offsets (newFrets openStringNote stringNumber)
    = Normal frets' ->
  forall f fret tag,
    lookupZ frets' f = Some fret ->
    In tag (sequences fret) ->
    exists seq,
      sorted !! index tag = Some seq
      /\ note fret
         = lookupZ notes
             ((indexOf notes (Some (tonality seq)) + interval tag) mod 12).
Proof.
  intros Hlen Hnd HNB Hmul Hopen Hton Hmark f fret tag Hf Htag.
  set (frets0 := newFrets openStringNote stringNumber) in *.
  pose proof (markString_rowKeeps
                (fun f fret =>
                   forall tag, In tag (sequences fret) ->
                     exists seq,
                       sorted !! index tag = Some seq
                       /\ (f - rootFretOf seq frets0 - interval tag) mod 12 = 0)
                sorted offsets frets0) as Hinv.
  rewrite Hmark in Hinv. simpl in Hinv. destruct Hinv as [Hsk HP].
  - intros index seq i g fr Hseq Hi Hg Hshow Hold tg Htg. simpl in Htg.
    apply in_app_or in Htg as [Htg|[<-|[]]]; [now apply Hold|].
    exists seq. simpl. split; [exact Hseq|].
    destruct Hg as [->| ->].
    + replace (rootFretOf seq frets0 + i - rootFretOf seq frets0 - i)
        with 0 by lia. reflexivity.
    + pose proof (Z.quot_rem' (rootFretOf seq frets0 + i + 12)
                    (Z.of_nat NB_FRETS)) as Hq.
      pose proof (Z.div_mod (Z.of_nat NB_FRETS) 12 ltac:(lia)) as Hd.
      rewrite Hmul, Z.add_0_r in Hd.
      set (r := Z.rem (rootFretOf seq frets0 + i + 12) (Z.of_nat NB_FRETS))
        in *.
      set (q := Z.quot (rootFretOf seq frets0 + i + 12) (Z.of_nat NB_FRETS))
        in *.
      replace (r - rootFretOf seq frets0 - i)
        with ((1 - Z.of_nat NB_FRETS / 12 * q) * 12) by nia.
      apply Z.mod_mul. lia.
  - intros g fr Hg tg Htg. apply newFrets_lookupZ in Hg as [_ ->].
    destruct Htg.
  - destruct (HP f fret Hf tag Htag) as (seq & Hseq & Hmod).
    exists seq. split; [exact Hseq|].
    destruct (skeleton_lookupZ _ _ _ _ Hsk Hf) as (fret0 & Hf0 & Hsk0).
    apply newFrets_lookupZ in Hf0 as [Hrange ->].
    replace (note fret) with (snd (skeleton fret)) by reflexivity.
    rewrite Hsk0. simpl. rewrite Hlen. change (Z.of_nat 12) with 12.
    assert (Hseq' : In seq sorted).
    { apply list_elem_of_In. eapply list_elem_of_lookup_2; eauto. }
    destruct (indexOf_present _ Hopen) as [Hio _].
    destruct (indexOf_present _ (Hton seq Hseq')) as [Hit _].
    rewrite Hlen in Hio, Hit. change (Z.of_nat 12) with 12 in Hio, Hit.
    rewrite Z.rem_mod_nonneg by lia. f_equal.
    assert (Hroot : rootFretOf seq frets0
                    = (indexOf notes (Some (tonality seq))
                       - indexOf notes (Some openStringNote)) mod 12).
    { unfold frets0.
      rewrite rootFretOf_is_getInterval_aux;
        [now rewrite Hlen|exact Hnd|lia|exact Hopen|now apply Hton]. }
    rewrite Hroot in Hmod.
    set (io := indexOf notes (Some openStringNote)) in *.
    set (it := indexOf notes (Some (tonality seq))) in *.
    apply Z.mod_divide in Hmod; [|lia]. destruct Hmod as [c Hc].
    replace (io + f) with ((it - io) mod 12 + (io + interval tag) + c * 12)
      by lia.
    rewrite Z.mod_add by lia.
    rewrite Z.add_mod_idemp_l by lia. f_equal. lia.
Qed.

(** ** The extended row and the layout of the grid *)

(** X16: a marked row of [NB_FRETS] frets is extended to
    [NB_FRETS + min(MAX_NB_FRETS - NB_FRETS, NB_FRETS)] frets; when
    [MAX_NB_FRETS] is below [NB_FRETS], the negative end of [slice] counts
    from the end of the row and the extended row has
    [NB_FRETS + MAX_NB_FRETS] frets. *)
Theorem extendFrets_length (frets : list Fret) :
  length frets = NB_FRETS ->
  length (extendFrets frets)
  = (NB_FRETS
     + (if (MAX_NB_FRETS <? NB_FRETS)%nat then MAX_NB_FRETS
        else Nat.min (MAX_NB_FRETS - NB_FRETS) NB_FRETS))%nat.
Proof.
  intros Hlen. unfold extendFrets, slice0.
  rewrite length_app, length_map, Hlen. f_equal.
  destruct (Z.ltb_spec (Z.of_nat MAX_NB_FRETS - Z.of_nat NB_FRETS) 0),
    (Nat.ltb_spec MAX_NB_FRETS NB_FRETS); try lia;
    rewrite length_take, Hlen; lia.
Qed.

(** X17: when [MAX_NB_FRETS] is at least [NB_FRETS], the extended row starts
    with the marked row itself, and the fret at position [NB_FRETS + k], for
    [k] below [MAX_NB_FRETS - NB_FRETS], is the fret [k] with [NB_FRETS] added
    to its number: same string, note, tags and highlight. *)
Theorem extendFrets_replicates (frets : list Fret) (k : nat) (fret : Fret) :
  length frets = NB_FRETS -> (NB_FRETS <= MAX_NB_FRETS)%nat ->
  frets !! k = Some fret ->
  extendFrets frets !! k = Some fret
  /\ ((k < MAX_NB_FRETS - NB_FRETS)%nat ->
      extendFrets frets !! (NB_FRETS + k)%nat = Some (renumbered fret)).
Proof.
  intros Hlen Hmax Hk. unfold extendFrets. split.
  - now apply lookup_app_l_Some.
  - intros Hlt. rewrite lookup_app_r by lia.
    replace (NB_FRETS + k - length frets)%nat with k by lia.
    change (map ?g ?l) with (g <$> l). rewrite list_lookup_fmap.
    unfold slice0.
    destruct (Z.ltb_spec (Z.of_nat MAX_NB_FRETS - Z.of_nat NB_FRETS) 0);
      [lia|].
    rewrite lookup_take_lt by lia. rewrite Hk. reflexivity.
Qed.

Lemma flatMapM_layout {A B C} (proj : B -> C) (row : nat -> list C)
    (f : A -> nat -> completion (list B)) (l : list A) (i : nat) (r : list B) :
  flatMapM f l i = Normal r ->
  (forall k x ys, l !! k = Some x -> f x (i + k)%nat = Normal ys ->
                  map proj ys = row (i + k)%nat) ->
  map proj r = flat_map row (seq i (length l)).
Proof.
  revert i r; induction l as [|x l IH]; intros i r Hr Hrow.
  - simpl in Hr. injection Hr as <-. reflexivity.
  - cbn [flatMapM] in Hr.
    destruct (f x i) as [ys|e] eqn:Hx; cbn [bind] in Hr; [|discriminate].
    destruct (flatMapM f l (S i)) as [rest|e] eqn:Hrest; cbn [bind] in Hr;
      [|discriminate].
    injection Hr as <-. rewrite map_app. cbn [length seq flat_map]. f_equal.
    + specialize (Hrow 0%nat x ys eq_refl). rewrite Nat.add_0_r in Hrow. auto.
    + apply IH; [exact Hrest|]. intros k z zs Hk Hz.
      replace (S i + k)%nat with (i + S k)%nat in * by lia.
      now apply (Hrow (S k) z zs).
Qed.

Lemma map_seq_shift {C} (g : nat -> C) (c a m : nat) :
  map g (seq (a + c) m) = map (fun k => g (k + c)%nat) (seq a m).
Proof.
  revert a; induction m as [|m IH]; intros a; [reflexivity|].
  simpl. f_equal. apply (IH (S a)).
Qed.

(** X18: when [NB_FRETS <= MAX_NB_FRETS <= 2 * NB_FRETS], the grid before
    the post-passes lists the strings in tuning order, each with exactly
    [MAX_NB_FRETS] frets numbered 0, 1, ... in order, whatever the sequences
    are. *)
Theorem allFrets_layout (sequences0 : list Sequence) (tuningNotes : list Note)
    (flipped : bool) (grid : list Fret) :
  (NB_FRETS <= MAX_NB_FRETS <= 2 * NB_FRETS)%nat ->
  allFrets sequences0 tuningNotes flipped = Normal grid ->
  map (fun fret => (string_ fret, number fret)) grid
  = flat_map (fun s => map (fun k => (s, Z.of_nat k)) (seq 0 MAX_NB_FRETS))
      (seq 0 (length tuningNotes)).
Proof.
  intros Hmax Hgrid. unfold allFrets in Hgrid.
  eapply flatMapM_layout; [exact Hgrid|].
  intros s openStringNote ys _ Hys. simpl in Hys. simpl. unfold stringFrets in Hys.
  pose proof (markString_skeleton (sortedSequences sequences0)
                (positionOffsets sequences0 tuningNotes flipped)
                (newFrets openStringNote s)) as Hsk.
  destruct (markString _ _ (newFrets openStringNote s)) as [frets|e];
    simpl in *; [|discriminate].
  injection Hys as <-.
  assert (Hproj : map (fun fret => (string_ fret, number fret)) frets
                  = map (fun k => (s, Z.of_nat k)) (seq 0 NB_FRETS)).
  { transitivity (map fst (map skeleton frets)); [now rewrite map_map|].
    rewrite Hsk. unfold newFrets. now rewrite !map_map. }
  unfold extendFrets, slice0.
  destruct (Z.ltb_spec (Z.of_nat MAX_NB_FRETS - Z.of_nat NB_FRETS) 0); [lia|].
  replace (Z.to_nat (Z.of_nat MAX_NB_FRETS - Z.of_nat NB_FRETS))
    with (MAX_NB_FRETS - NB_FRETS)%nat by lia.
  replace MAX_NB_FRETS with (NB_FRETS + (MAX_NB_FRETS - NB_FRETS))%nat at 2
    by lia.
  rewrite seq_app, !map_app, Hproj. f_equal. simpl.
  rewrite (map_seq_shift (fun k => (s, Z.of_nat k)) NB_FRETS 0).
  rewrite map_map.
  transitivity (map (fun p : nat * Z => (fst p, snd p + Z.of_nat NB_FRETS))
                  (map (fun fret => (string_ fret, number fret))
                     (take (MAX_NB_FRETS - NB_FRETS) frets)));
    [now rewrite map_map|].
  rewrite <- firstn_map, Hproj, firstn_map, take_seq, map_map.
  replace (Nat.min (MAX_NB_FRETS - NB_FRETS) NB_FRETS)
    with (MAX_NB_FRETS - NB_FRETS)%nat by lia.
  apply map_ext. intros k. simpl. f_equal. lia.
Qed.

(** ** Octave duplication, downwards *)

Lemma applyInterval_octavePairedDown (sorted : list Sequence)
    (offsets : list Z) (seq : Sequence) (index : nat) (root i : Z)
    (frets frets' : list Fret) :
  NB_FRETS = 24%nat ->
  sorted !! index = Some seq ->
  0 <= root + i < 24 ->
  octavePairedDown sorted offsets frets ->
  applyInterval seq index offsets root frets i = Normal frets' ->
  octavePairedDown sorted offsets frets'.
Proof.
  intros HNB Hseq Ht Hinv Happ.
  destruct (applyInterval_Normal _ _ _ _ _ _ _ Happ)
    as [(_ & _ & ->)|(_ & frets1 & Hm1 & Hm2)]; [auto|].
  rewrite HNB in Hm2. change (Z.of_nat 24) with 24 in Hm2.
  rewrite rem_octave in Hm2 by exact Ht.
  destruct Hm1 as (b1 & Hd1 & Hs1 & _ & Ht1).
  destruct Hm2 as (b2 & Hd2 & Hs2 & _ & Ht2).
  intros f tag Hf Hin. rewrite HNB in Hf. change (Z.of_nat 24) with 24 in Hf.
  rewrite Ht2, Ht1 in Hin. rewrite Ht2, Ht1.
  rewrite !in_app_iff, !in_added in Hin. rewrite !in_app_iff, !in_added.
  destruct Hin as [[Hold|(-> & -> & ->)]|(-> & Hfd & ->)].
  - destruct (Hinv f tag) as [Hup|Hsup]; [rewrite HNB; lia|exact Hold|auto|auto].
  - destruct (Z.ltb_spec (root + i) 12) as [Hlt|Hge]; [lia|].
    destruct b2; [left; right; auto|].
    right. exists seq. simpl. auto.
  - destruct (Z.ltb_spec (root + i) 12) as [Hlt|Hge]; [|lia].
    destruct b1.
    + left. left. right. repeat split; [lia].
    + right. exists seq. simpl. split; [exact Hseq|].
      now replace (f - 12) with (root + i) by lia.
Qed.

(** X19: with two octaves of frets and targets inside the row, every tag on
    a fret [f] of the upper octave (12 <= f < 24) of a marked string is also
    on the fret [f - 12], unless the window filter of the tagging sequence
    suppresses [f - 12]. *)
Theorem octave_duplicate_marks_down (sorted : list Sequence) (offsets : list Z)
    (openStringNote : Note) (stringNumber : nat) (frets' : list Fret) :
  NB_FRETS = 24%nat ->
  (forall index seq i,
      sorted !! index = Some seq ->
      In i (0 :: intervalsForSequence seq) ->
      0 <= rootFretOf seq (newFrets openStringNote stringNumber) + i < 24) ->
  markString sorted offsets (newFrets openStringNote stringNumber)
    = Normal frets' ->
  octavePairedDown sorted offsets frets'.
Proof.
  intros HNB Hrange Hmark. set (frets0 := newFrets openStringNote stringNumber) in *.
  assert (Hc : completes
                 (fun frets => octavePairedDown sorted offsets frets
                               /\ map skeleton frets = map skeleton frets0)
                 (fun _ => True) (markString sorted offsets frets0)).
  { unfold markString.
    apply forEachM_completes
      with (Q := fun e : nat * Sequence => sorted !! fst e = Some (snd e));
      [| |apply indexed_Forall].
    - intros frets [index seq] [Hinv Hskel] Hseq. simpl in Hseq.
      unfold markSequence.
      rewrite (rootFretOf_skeleton seq frets frets0 Hskel).
      assert (Hstep : forall s i,
                 (octavePairedDown sorted offsets s
                  /\ map skeleton s = map skeleton frets0) ->
                 In i (0 :: intervalsForSequence seq) ->
                 completes
                   (fun frets => octavePairedDown sorted offsets frets
                                 /\ map skeleton frets = map skeleton frets0)
                   (fun _ => True)
                   (applyInterval seq index offsets (rootFretOf seq frets0) s i)).
      { intros s i [Hs Hsk] Hi.
        pose proof (applyInterval_skeleton seq index offsets
                      (rootFretOf seq frets0) i s) as Hsk'.
        destruct (applyInterval seq index offsets (rootFretOf seq frets0) s i)
          as [s'|e] eqn:Happ; simpl in *; [|exact I].
        split; [|congruence].
        eapply applyInterval_octavePairedDown; eauto. }
      pose proof (Hstep frets 0 (conj Hinv Hskel) (or_introl eq_refl)) as H0.
      destruct (applyInterval seq index offsets (rootFretOf seq frets0) frets 0)
        as [frets1|e]; simpl in *; [|exact I].
      apply forEachM_completes
        with (Q := fun i => In i (0 :: intervalsForSequence seq)); auto.
      apply List.Forall_forall. intros i Hi. now right.
    - split; [|reflexivity]. intros f tag _ Hin. unfold frets0 in Hin.
      rewrite newFrets_no_tags in Hin. destruct Hin. }
  rewrite Hmark in Hc. apply Hc.
Qed.

(** ** Tags of intersected sequences, row level *)

Lemma partner_involutive (t : Z) :
  0 <= t < 24 -> partner (partner t) = t /\ 0 <= partner t < 24.
Proof.
  intros Ht. unfold partner.
  destruct (Z.ltb_spec t 12) as [Hlt|Hge].
  - destruct (Z.ltb_spec (t + 12) 12); lia.
  - destruct (Z.ltb_spec (t - 12) 12); lia.
Qed.

Lemma tagsAt_in_row (frets : list Fret) (f : Z) :
  tagsAt frets f <> [] -> 0 <= f < Z.of_nat (length frets).
Proof.
  unfold tagsAt. destruct (lookupZ frets f) as [fret|] eqn:Hf; [|congruence].
  intros _. eapply lookupZ_Some_range; eauto.
Qed.

(** The tags of every fret after one [applyInterval] that went past the
    guard: the old ones, then the new tag on the target fret and on its
    duplicate, each where the filter displays the fret. *)
Lemma applyInterval_tags (seq : Sequence) (index : nat) (offsets : list Z)
    (root i : Z) (frets frets' : list Fret) :
  applyInterval seq index offsets root frets i = Normal frets' ->
  map skeleton frets' = map skeleton frets
  /\ (frets' = frets
      \/ ((isIntersected seq = false \/ tagsAt frets (root + i) <> [])
          /\ exists b1 b2 : bool,
              forall g,
                tagsAt frets' g
                = tagsAt frets g
                  ++ (if b1 && (g =? root + i)
                      then [{| index := index; interval := i |}] else [])
                  ++ (if b2 && (g =? Z.rem (root + i + 12) (Z.of_nat NB_FRETS))
                      then [{| index := index; interval := i |}] else []))).
Proof.
  intros Happ.
  destruct (applyInterval_Normal _ _ _ _ _ _ _ Happ)
    as [(_ & _ & ->)|(Hguard & frets1 & Hm1 & Hm2)]; [auto|].
  destruct Hm1 as (b1 & _ & Hs1 & _ & Ht1).
  destruct Hm2 as (b2 & _ & Hs2 & _ & Ht2).
  split; [congruence|]. right. split; [exact Hguard|].
  exists b1, b2. intros g. now rewrite Ht2, Ht1, app_assoc.
Qed.

Lemma applyInterval_moment (sorted : list Sequence) (seq : Sequence)
    (index : nat) (offsets : list Z) (root i : Z) (frets frets' : list Fret)
    (f : Z) :
  NB_FRETS = 24%nat -> length frets = NB_FRETS ->
  isIntersected seq = true ->
  plainBacked sorted frets ->
  applyInterval seq index offsets root frets i = Normal frets' ->
  tagsAt frets' f <> tagsAt frets f ->
  (f = root + i \/ f = partner (root + i))
  /\ 0 <= root + i < 24
  /\ backedAt sorted frets f.
Proof.
  intros HNB Hlen Hint Hback Happ Hnew.
  destruct (applyInterval_tags _ _ _ _ _ _ _ Happ)
    as [_ [->|([Hplain|Htarget] & b1 & b2 & Htags)]];
    [congruence|congruence|].
  pose proof (tagsAt_in_row _ _ Htarget) as Hrange.
  rewrite Hlen, HNB in Hrange. change (Z.of_nat 24) with 24 in Hrange.
  rewrite HNB in Htags. change (Z.of_nat 24) with 24 in Htags.
  assert (Hdup : Z.rem (root + i + 12) 24 = partner (root + i))
    by (now rewrite rem_octave).
  rewrite Hdup in Htags.
  destruct (partner_involutive _ Hrange) as [Hinv _].
  destruct (Hback _ Htarget) as (tag & Htag & Hwhere).
  rewrite Htags in Hnew.
  destruct (Z.eqb_spec f (root + i)) as [->|Hne].
  - split; [now left|]. split; [exact Hrange|]. exists tag. auto.
  - destruct (Z.eqb_spec f (partner (root + i))) as [->|Hne'].
    + split; [now right|]. split; [exact Hrange|]. exists tag.
      split; [exact Htag|]. rewrite Hinv. destruct Hwhere; auto.
    + exfalso. apply Hnew. rewrite !andb_false_r. now rewrite !app_nil_r.
Qed.

Lemma applyInterval_plainBacked (sorted : list Sequence) (seq : Sequence)
    (index : nat) (offsets : list Z) (root i : Z) (frets frets' : list Fret) :
  NB_FRETS = 24%nat -> length frets = NB_FRETS ->
  sorted !! index = Some seq ->
  plainBacked sorted frets ->
  applyInterval seq index offsets root frets i = Normal frets' ->
  plainBacked sorted frets'.
Proof.
  intros HNB Hlen Hseq Hback Happ.
  destruct (applyInterval_tags _ _ _ _ _ _ _ Happ)
    as [_ [->|(Hguard & b1 & b2 & Htags)]]; [exact Hback|].
  assert (Hmono : forall g tag, In tag (tagsAt frets g) ->
                                In tag (tagsAt frets' g)).
  { intros g tag Hin. rewrite Htags. apply in_or_app. now left. }
  assert (Hkeep : forall g, backedAt sorted frets g -> backedAt sorted frets' g).
  { intros g (tag & Htag & [Hin|Hin]); exists tag; auto. }
  intros f Hf.
  destruct (tagsAt frets f) as [|old olds] eqn:Hold.
  - destruct (isIntersected seq) eqn:Hint.
    + apply Hkeep.
      eapply (applyInterval_moment sorted seq index offsets root i frets frets');
        eauto.
      rewrite Hold. exact Hf.
    + exists {| index := index; interval := i |}. split; [now exists seq|].
      left. rewrite Htags, Hold. rewrite Htags, Hold in Hf. simpl in *.
      destruct (b1 && (f =? root + i)); [now left|].
      destruct (b2 && (f =? Z.rem (root + i + 12) (Z.of_nat NB_FRETS)));
        [now left|contradiction].
  - apply Hkeep, Hback. now rewrite Hold.
Qed.

Lemma markString_plainBacked (sorted : list Sequence) (offsets : list Z)
    (frets0 : list Fret) :
  NB_FRETS = 24%nat -> length frets0 = NB_FRETS ->
  plainBacked sorted frets0 ->
  completes
    (fun frets => plainBacked sorted frets
                  /\ map skeleton frets = map skeleton frets0)
    (fun _ => True) (markString sorted offsets frets0).
Proof.
  intros HNB Hlen Hback0. unfold markString.
  apply forEachM_completes
    with (Q := fun e : nat * Sequence => sorted !! fst e = Some (snd e));
    [|auto|apply indexed_Forall].
  intros frets [index seq] [Hback Hskel] Hseq. simpl in Hseq.
  unfold markSequence.
  assert (Hstep : forall s i,
             (plainBacked sorted s /\ map skeleton s = map skeleton frets0) ->
             True ->
             completes
               (fun frets => plainBacked sorted frets
                             /\ map skeleton frets = map skeleton frets0)
               (fun _ => True)
               (applyInterval seq index offsets (rootFretOf seq frets) s i)).
  { intros s i [Hs Hsk] _.
    destruct (applyInterval seq index offsets (rootFretOf seq frets) s i)
      as [s'|e] eqn:Happ; simpl; [|exact I].
    split.
    - apply (applyInterval_plainBacked sorted seq index offsets
               (rootFretOf seq frets) i s s' HNB);
        [rewrite (skeleton_length _ _ Hsk); exact Hlen|exact Hseq|exact Hs
        |exact Happ].
    - destruct (applyInterval_tags _ _ _ _ _ _ _ Happ) as [Hsk' _]. congruence. }
  pose proof (Hstep frets 0 (conj Hback Hskel) I) as H0.
  destruct (applyInterval seq index offsets (rootFretOf seq frets) frets 0)
    as [frets1|e]; simpl in *; [|exact I].
  apply forEachM_completes with (Q := fun _ => True);
    [exact Hstep|exact H0|apply List.Forall_forall; auto].
Qed.

(** C3 (amended): in a row of two octaves, a tag of an intersected sequence
    is appended only to the target fret of its interval and to the octave
    duplicate of that fret, and only when, at the moment of marking, the fret
    it is appended to or the octave partner of that fret carries a tag of a
    sequence that is not intersected; the fret itself need not carry one.
    This property of the row holds on the fresh row, is kept by every
    [applyInterval], whatever the order of the sequences, and so holds in
    the marked row: every fret with a tag is backed by a tag of a sequence
    that is not intersected, on itself or on its octave partner. *)
Theorem intersected_tags_are_backed (sorted : list Sequence)
    (offsets : list Z) :
  NB_FRETS = 24%nat ->
  (forall openStringNote stringNumber frets',
      markString sorted offsets (newFrets openStringNote stringNumber)
        = Normal frets' ->
      length frets' = NB_FRETS /\ plainBacked sorted frets')
  /\ (forall seq index root i frets frets',
        length frets = NB_FRETS -> plainBacked sorted frets ->
        sorted !! index = Some seq ->
        applyInterval seq index offsets root frets i = Normal frets' ->
        length frets' = NB_FRETS /\ plainBacked sorted frets')
  /\ (forall seq index root i frets frets' f,
        length frets = NB_FRETS -> plainBacked sorted frets ->
        isIntersected seq = true ->
        applyInterval seq index offsets root frets i = Normal frets' ->
        tagsAt frets' f <> tagsAt frets f ->
        (f = root + i \/ f = partner (root + i))
        /\ backedAt sorted frets f).
Proof.
  intros HNB. split; [|split].
  - intros openStringNote stringNumber frets' Hmark.
    pose proof (markString_plainBacked sorted offsets
                  (newFrets openStringNote stringNumber) HNB
                  (newFrets_length openStringNote stringNumber)) as Hc.
    rewrite Hmark in Hc. simpl in Hc. destruct Hc as [Hback Hsk].
    + intros f Hf. now rewrite newFrets_no_tags in Hf.
    + split; [|exact Hback].
      now rewrite (skeleton_length _ _ Hsk), newFrets_length.
  - intros seq index root i frets frets' Hlen Hback Hseq Happ. split.
    + destruct (applyInterval_tags _ _ _ _ _ _ _ Happ) as [Hsk _].
      now rewrite (skeleton_length _ _ Hsk).
    + eapply applyInterval_plainBacked; eauto.
  - intros seq index root i frets frets' f Hlen Hback Hint Happ Hnew.
    destruct (applyInterval_moment sorted seq index offsets root i frets frets'
                f HNB Hlen Hint Hback Happ Hnew) as (Hf & _ & Hb).
    auto.
Qed.

End Fretboard.

(** * Runs in the sample environment *)

Section SampleRuns.

Import Sample.

Local Abbreviation runGetFrets :=
  (getFrets notes models NB_FRETS MAX_NB_FRETS intervalsForSequence
     shiftSequencesDown).
Local Abbreviation runMarkString :=
  (markString models NB_FRETS intervalsForSequence).

(** C1: the input holds an intersected A major sequence at position 0 and a
    plain E major sequence at position 1.  The sort processes the E sequence
    first, and the open low E fret carries the root tag (interval 0) of the E
    sequence under index 0, the input position of the A sequence. *)
Lemma tag_index_is_processing_position :
  let input := [major "A" 0 (0, 0) true; major "E" 0 (0, 0) false] in
  exists (grid : list Fret) (fret : Fret),
    runGetFrets input standardTuning 0 false = Normal grid
    /\ grid !! 0%nat = Some fret
    /\ note fret = Some "E"
    /\ sequences fret = [tag 0 0; tag 1 7]
    /\ map tonality input = ["A"; "E"]
    /\ map tonality (sortedSequences input) = ["E"; "A"].
Proof.
  intros input.
  exists (returned (runGetFrets input standardTuning 0 false)).
  exists {| string_ := 0; number := 0; note := Some "E";
            sequences := [tag 0 0; tag 1 7]; isHighlighted := true |}.
  repeat split; vm_compute; reflexivity.
Qed.

(** C2: with the same two sequences, the E major sequence restricted to its
    first position (window [-1, 3] from its root, offset 0 on the low E
    string) is filtered with the offset 5 computed for the A sequence: its
    tags (index 0) land on the frets 4, 5 and 7 instead of 0 and 2.  With
    the two sequences swapped in the input, the sort keeps the order and the
    window is the right one. *)
Lemma window_offset_of_other_sequence :
  let A := major "A" 0 (0, 0) true in
  let E := major "E" 1 (0, 0) false in
  positionOffsets notes [A; E] standardTuning false = [5; 0]
  /\ getInterval notes (lowestTuningNote standardTuning false)
       (Some (tonality E)) = 0
  /\ indexed (sortedSequences [A; E]) = [(0%nat, E); (1%nat, A)]
  /\ take 12 (tagsOfString 0
               (returned (runGetFrets [A; E] standardTuning 0 false)))
     = [(0, []); (1, []); (2, []); (3, []); (4, [tag 0 4]);
        (5, [tag 0 5; tag 1 0]); (6, []); (7, [tag 0 7; tag 1 2]);
        (8, []); (9, []); (10, []); (11, [])]
  /\ take 12 (tagsOfString 0
               (returned (runGetFrets [E; A] standardTuning 0 false)))
     = [(0, [tag 0 0]); (1, []); (2, [tag 0 2]); (3, []); (4, []);
        (5, []); (6, []); (7, []); (8, []); (9, []); (10, []); (11, [])].
Proof. repeat split; vm_compute; reflexivity. Qed.

(** C3 (counterexample): the plain E major sequence is limited to the frets
    0..11 by custom bounds, so fret 12 carries no tag when the intersected E
    major sequence is marked; its root finds a tag on the target fret 0 and
    is appended to the octave duplicate 12 as well.  A second intersected
    sequence (F major) then targets fret 12, which carries tags of
    intersected sequences only, and is appended too. *)
Lemma intersected_tag_on_untagged_fret :
  let plain := major "E" (-1) (0, 11) false in
  let crossed := major "E" 0 (0, 0) true in
  let crossed' := major "F" 0 (0, 0) true in
  let offsets := [0; 0; 1] in
  let frets1 :=
    returned (runMarkString [plain] offsets (newFrets notes NB_FRETS "E" 0)) in
  let frets2 := returned (applyInterval models NB_FRETS crossed 1 offsets 0 frets1 0) in
  isIntersected crossed = true
  /\ tagsAt frets1 0 = [tag 0 0]
  /\ tagsAt frets1 12 = []
  /\ applyInterval models NB_FRETS crossed 1 offsets 0 frets1 0 = Normal frets2
  /\ tagsAt frets2 12 = [tag 1 0]
  /\ positionOffsets notes [plain; crossed; crossed'] ["E"] false = offsets
  /\ sortedSequences [plain; crossed; crossed'] = [plain; crossed; crossed']
  /\ take 1 (drop 12 (tagsOfString 0
       (returned (runGetFrets [plain; crossed; crossed'] ["E"] 0 false))))
     = [(12, [tag 1 0; tag 2 11])].
Proof. repeat split; vm_compute; reflexivity. Qed.

(** C7 (counterexample): H is not in the table, and the computation returns
    an integer on every pair that contains it. *)
Lemma getInterval_returns_on_missing_note :
  ~ In "H" notes
  /\ getInterval notes (Some "H") (Some "A") = 10
  /\ getInterval notes (Some "A") (Some "H") = 2
  /\ getInterval notes (Some "H") (Some "H") = 0.
Proof.
  split; [|repeat split; vm_compute; reflexivity].
  simpl. intuition discriminate.
Qed.

(** C10 (counterexample): the tonality H is not in the table and the root
    fret is -1, yet the call returns a grid: the custom bounds 0..23 suppress
    fret -1, so [frets[-1]] is never read, and the root tag lands on the
    duplicate fret 11. *)
Lemma missing_tonality_without_out_of_range_read :
  let seq := major "H" (-1) (0, 23) false in
  ~ In (tonality seq) notes
  /\ rootFretOf seq (newFrets notes NB_FRETS "E" 0) = -1
  /\ (exists grid, runGetFrets [seq] ["E"] 0 false = Normal grid
                   /\ take 1 (drop 11 (tagsOfString 0 grid))
                      = [(11, [tag 0 0])])
  /\ applyInterval models NB_FRETS seq 0 [0] (-1)
       (newFrets notes NB_FRETS "E" 0) 0
     = markFret models seq 0 [0] 0 (newFrets notes NB_FRETS "E" 0) 11.
Proof.
  intros seq. split; [simpl; intuition discriminate|].
  split; [vm_compute; reflexivity|]. split; [|vm_compute; reflexivity].
  exists (returned (runGetFrets [seq] ["E"] 0 false)).
  split; vm_compute; reflexivity.
Qed.

(** ** Instances of the theorems *)

Ltac in_list := simpl; repeat ((left; reflexivity) || right).

Ltac value_of r := vm_compute in r; subst r.

Lemma getInterval_chromatic_witness :
  getInterval notes (Some "E") (Some "A")
    = (indexOf notes (Some "A") - indexOf notes (Some "E")) mod 12
  /\ 0 <= getInterval notes (Some "E") (Some "A") <= 11
  /\ getInterval notes (Some "E") (Some "E") = 0
  /\ (getInterval notes (Some "E") (Some "A")
      + getInterval notes (Some "A") (Some "E")) mod 12 = 0.
Proof.
  apply (getInterval_chromatic notes "E" "A"); [reflexivity|in_list|in_list].
Defined.

Lemma getInterval_missing_note_witness :
  getInterval notes (Some "H") (Some "A")
  = if indexOf notes (Some "H") =? -1
    then indexOf notes (Some "A") + 1
    else Z.of_nat (length notes) - indexOf notes (Some "H") - 1.
Proof.
  apply (getInterval_missing_note notes "H" "A").
  simpl. intuition discriminate.
Defined.

Lemma shouldDisplayFret_window_witness :
  exists b : bool,
    shouldDisplayFret models 2 0 (major "E" 1 (0, 0) false) [0] = Normal b
    /\ (b = true <->
        (-1 + 0 < 3 + 0 /\ -1 + 0 <= 2 <= 3 + 0)
        \/ (-1 + 0 >= 3 + 0 /\ (2 >= -1 + 0 \/ 2 <= 3 + 0))).
Proof.
  apply (proj1 (shouldDisplayFret_window models 2 0 (major "E" 1 (0, 0) false)
                  [0]
                  {| positions :=
                       Some [(-1, 3); (2, 5); (4, 8); (7, 10); (9, 12)] |}
                  [(-1, 3); (2, 5); (4, 8); (7, 10); (9, 12)] (-1) 3 0
                  ltac:(discriminate) ltac:(discriminate)
                  eq_refl eq_refl eq_refl eq_refl)).
Defined.

Lemma getFrets_capo_witness :
  runGetFrets [major "E" 0 (0, 0) false] standardTuning 2 false
  = (let! grid := runGetFrets [major "E" 0 (0, 0) false] standardTuning 0 false in
     Normal (filterCapo grid 2)).
Proof.
  apply (proj1 (getFrets_capo notes models NB_FRETS MAX_NB_FRETS
                  intervalsForSequence shiftSequencesDown
                  [major "E" 0 (0, 0) false] standardTuning 2 false
                  ltac:(lia))).
Defined.

Lemma intersected_tags_are_backed_witness :
  (12 = 0 + 0 \/ 12 = partner (0 + 0))
  /\ backedAt [major "E" (-1) (0, 11) false]
       (returned (runMarkString [major "E" (-1) (0, 11) false] [0; 0; 1]
                    (newFrets notes NB_FRETS "E" 0)))
       12.
Proof.
  apply (proj2 (proj2 (intersected_tags_are_backed notes models NB_FRETS
                         intervalsForSequence
                         [major "E" (-1) (0, 11) false] [0; 0; 1] eq_refl))
           (major "E" 0 (0, 0) true) 1%nat 0 0
           (returned (runMarkString [major "E" (-1) (0, 11) false] [0; 0; 1]
                        (newFrets notes NB_FRETS "E" 0)))
           (returned (applyInterval models NB_FRETS (major "E" 0 (0, 0) true)
                        1 [0; 0; 1] 0
                        (returned (runMarkString
                                     [major "E" (-1) (0, 11) false] [0; 0; 1]
                                     (newFrets notes NB_FRETS "E" 0)))
                        0))).
  - vm_compute. reflexivity.
  - apply (proj1 (intersected_tags_are_backed notes models NB_FRETS
                    intervalsForSequence
                    [major "E" (-1) (0, 11) false] [0; 0; 1] eq_refl)
             "E" 0%nat).
    vm_compute. reflexivity.
  - reflexivity.
  - vm_compute. reflexivity.
  - vm_compute. discriminate.
Defined.

Lemma octave_duplicate_marks_witness :
  In (tag 0 0)
    (tagsAt (returned (runMarkString [major "E" 0 (0, 0) false] [0]
                         (newFrets notes NB_FRETS "E" 0)))
       (0 + 12))
  \/ exists seq,
       [major "E" 0 (0, 0) false] !! index (tag 0 0) = Some seq
       /\ shouldDisplayFret models (0 + 12) (index (tag 0 0)) seq [0]
          = Normal false.
Proof.
  apply (proj2 (octave_duplicate_marks notes models NB_FRETS
                  intervalsForSequence)
           eq_refl [major "E" 0 (0, 0) false] [0] "E" 0%nat
           (returned (runMarkString [major "E" 0 (0, 0) false] [0]
                        (newFrets notes NB_FRETS "E" 0)))).
  - intros index seq i Hseq Hi.
    destruct index as [|index]; [|discriminate].
    injection Hseq as <-.
    set (r := rootFretOf (major "E" 0 (0, 0) false)
                (newFrets notes NB_FRETS "E" 0)).
    value_of r.
    simpl in Hi.
    repeat (destruct Hi as [<-|Hi]; [lia|]). destruct Hi.
  - vm_compute. reflexivity.
  - change (Z.of_nat NB_FRETS) with 24. lia.
  - vm_compute. left. reflexivity.
Defined.

Lemma fret_note_determined_witness :
  exists openStringNote,
    standardTuning !! 1%nat = Some openStringNote
    /\ Some "B"
       = lookupZ notes ((indexOf notes (Some openStringNote) + 26) mod 12).
Proof.
  apply (fret_note_determined notes models NB_FRETS MAX_NB_FRETS
           intervalsForSequence shiftSequencesDown
           [major "E" 0 (0, 0) false] standardTuning 2 false
           (returned (runGetFrets [major "E" 0 (0, 0) false] standardTuning
                        2 false))
           eq_refl eq_refl)
    with (fret := {| string_ := 1; number := 26; note := Some "B";
                     sequences := [tag 0 7]; isHighlighted := false |}).
  - intros openStringNote Hn. simpl in Hn.
    repeat (destruct Hn as [<-|Hn]; [in_list|]). destruct Hn.
  - intros frets fret Hfret. exists fret. split; [exact Hfret|reflexivity].
  - vm_compute. reflexivity.
  - vm_compute. repeat ((left; reflexivity) || right).
Defined.

Lemma fret_reads_in_bounds_witness :
  completes (fun _ => True) notFretError
    (runGetFrets [major "A" 0 (0, 0) false] ["E"; "A"] 0 false).
Proof.
  apply (proj1 (fret_reads_in_bounds notes models NB_FRETS MAX_NB_FRETS
                  intervalsForSequence shiftSequencesDown
                  [major "A" 0 (0, 0) false] ["E"; "A"] 0 false)).
  - reflexivity.
  - unfold NB_FRETS. lia.
  - intros openStringNote Hn. simpl in Hn.
    repeat (destruct Hn as [<-|Hn]; [in_list|]). destruct Hn.
  - intros seq Hseq. simpl in Hseq. destruct Hseq as [<-|[]]. in_list.
  - intros stringNumber openStringNote seq i Hs Hseq Hi.
    simpl in Hseq. destruct Hseq as [<-|[]].
    change (Z.of_nat NB_FRETS) with 24.
    destruct stringNumber as [|[|stringNumber]]; [| |discriminate];
      injection Hs as <-;
      match goal with
      | |- context [rootFretOf ?s ?f] => set (r := rootFretOf s f)
      end;
      value_of r; simpl in Hi;
      repeat (destruct Hi as [<-|Hi]; [lia|]); destruct Hi.
Defined.

(** ** Instances of the further properties *)

Local Abbreviation runAllFrets :=
  (allFrets notes models NB_FRETS MAX_NB_FRETS intervalsForSequence).

Lemma notes_NoDup : NoDup notes.
Proof.
  unfold notes.
  repeat (constructor; [rewrite list_elem_of_In; simpl; intuition discriminate|]).
  constructor.
Qed.

Lemma sortedSequences_grouped_witness :
  sortedSequences ([major "E" 0 (0, 0) false] ++ [major "A" 0 (0, 0) true])
  = [major "E" 0 (0, 0) false] ++ [major "A" 0 (0, 0) true]
  /\ sortedSequences
       (sortedSequences [major "A" 0 (0, 0) true; major "E" 0 (0, 0) false])
     = sortedSequences [major "A" 0 (0, 0) true; major "E" 0 (0, 0) false].
Proof.
  apply (sortedSequences_grouped [major "E" 0 (0, 0) false]
           [major "A" 0 (0, 0) true]
           [major "A" 0 (0, 0) true; major "E" 0 (0, 0) false]);
    repeat constructor.
Defined.

Lemma getInterval_reaches_witness :
  lookupZ notes
    ((indexOf notes (Some "A") + getInterval notes (Some "A") (Some "E"))
       mod Z.of_nat (length notes))
  = Some "E".
Proof.
  apply (getInterval_reaches notes "A" "E"); in_list.
Defined.

Lemma getInterval_additive_witness :
  (getInterval notes (Some "E") (Some "A")
   + getInterval notes (Some "A") (Some "D")) mod Z.of_nat (length notes)
  = getInterval notes (Some "E") (Some "D").
Proof.
  apply (getInterval_additive notes "E" "A" "D"); in_list.
Defined.

Lemma filterCapo_compose_witness :
  filterCapo
    [{| string_ := 0; number := 3; note := Some "G"; sequences := [tag 0 3];
        isHighlighted := false |}] 2
  = [{| string_ := 0; number := 3; note := Some "G"; sequences := [tag 0 3];
        isHighlighted := false |}].
Proof.
  apply (proj2 (filterCapo_compose
                  [{| string_ := 0; number := 3; note := Some "G";
                      sequences := [tag 0 3]; isHighlighted := false |}]
                  2 0)).
  intros fret [<-|[]]. simpl. lia.
Defined.

Lemma getFrets_below_capo_witness :
  sequences {| string_ := 0; number := 0; note := Some "E"; sequences := [];
               isHighlighted := true |} = [].
Proof.
  apply (getFrets_below_capo notes models NB_FRETS MAX_NB_FRETS
           intervalsForSequence shiftSequencesDown
           [major "E" 0 (0, 0) false] standardTuning 2 false
           (returned (runGetFrets [major "E" 0 (0, 0) false] standardTuning
                        2 false))).
  - vm_compute. reflexivity.
  - vm_compute. left. reflexivity.
  - simpl. lia.
Defined.

Lemma isInPosition_wrapped_witness :
  isInPosition 5 (Some (10, 2)) (Some 0) = Normal false <-> 2 + 0 < 5 < 10 + 0.
Proof.
  apply (proj1 (isInPosition_wrapped 5 10 2 0)). lia.
Defined.

Lemma marks_are_justified_witness :
  0 <= 12 < Z.of_nat NB_FRETS
  /\ justified models NB_FRETS intervalsForSequence
       [major "E" 0 (0, 0) false] [0]
       (fun seq => rootFretOf seq (newFrets notes NB_FRETS "E" 0)) 12 (tag 0 0).
Proof.
  apply (proj2 (marks_are_justified notes models NB_FRETS intervalsForSequence
                  [major "E" 0 (0, 0) false] [0] "E" 0%nat
                  (returned (runMarkString [major "E" 0 (0, 0) false] [0]
                               (newFrets notes NB_FRETS "E" 0)))
                  ltac:(vm_compute; reflexivity))).
  vm_compute. left. reflexivity.
Defined.

Lemma highlight_iff_tag_witness :
  isHighlighted {| string_ := 0; number := 12; note := Some "E";
                   sequences := [tag 0 0]; isHighlighted := true |} = true
  <-> exists tag seq,
        In tag (sequences {| string_ := 0; number := 12; note := Some "E";
                             sequences := [Sample.tag 0 0];
                             isHighlighted := true |})
        /\ [major "E" 0 (0, 0) false] !! index tag = Some seq
        /\ highlightedInterval seq = Some (interval tag).
Proof.
  apply (highlight_iff_tag notes models NB_FRETS intervalsForSequence
           [major "E" 0 (0, 0) false] [0] "E" 0%nat
           (returned (runMarkString [major "E" 0 (0, 0) false] [0]
                        (newFrets notes NB_FRETS "E" 0)))
           ltac:(vm_compute; reflexivity) 12).
  vm_compute. reflexivity.
Defined.

Lemma intersected_alone_mark_nothing_witness :
  Forall untagged
    (returned (runAllFrets [major "E" 0 (0, 0) true] ["E"; "A"] false)).
Proof.
  apply (intersected_alone_mark_nothing notes models NB_FRETS MAX_NB_FRETS
           intervalsForSequence [major "E" 0 (0, 0) true] ["E"; "A"] false).
  - intros seq [<-|[]]. reflexivity.
  - vm_compute. reflexivity.
Defined.

Lemma getFrets_returns_witness :
  exists grid,
    runGetFrets [major "A" 1 (0, 0) false] ["E"; "A"] 0 false = Normal grid.
Proof.
  apply (getFrets_returns notes models NB_FRETS MAX_NB_FRETS
           intervalsForSequence shiftSequencesDown
           [major "A" 1 (0, 0) false] ["E"; "A"] 0 false).
  - reflexivity.
  - unfold NB_FRETS. lia.
  - intros openStringNote Hn. simpl in Hn.
    repeat (destruct Hn as [<-|Hn]; [in_list|]). destruct Hn.
  - intros seq Hseq. simpl in Hseq. destruct Hseq as [<-|[]]. split; [in_list|].
    right. right. split; [discriminate|].
    exists {| positions :=
                Some [(-1, 3); (2, 5); (4, 8); (7, 10); (9, 12)] |}.
    split; [reflexivity|]. right.
    exists [(-1, 3); (2, 5); (4, 8); (7, 10); (9, 12)], (-1, 3).
    split; reflexivity.
  - intros stringNumber openStringNote seq i Hs Hseq Hi.
    simpl in Hseq. destruct Hseq as [<-|[]].
    change (Z.of_nat NB_FRETS) with 24.
    destruct stringNumber as [|[|stringNumber]]; [| |discriminate];
      injection Hs as <-;
      match goal with
      | |- context [rootFretOf ?s ?f] => set (r := rootFretOf s f)
      end;
      value_of r; simpl in Hi;
      repeat (destruct Hi as [<-|Hi]; [lia|]); destruct Hi.
Defined.

Lemma rootFretOf_is_getInterval_witness :
  rootFretOf (major "A" 0 (0, 0) false) (newFrets notes NB_FRETS "E" 0)
  = getInterval notes (Some "E") (Some "A").
Proof.
  apply (rootFretOf_is_getInterval notes NB_FRETS (major "A" 0 (0, 0) false)
           "E" 0%nat notes_NoDup).
  - unfold NB_FRETS. simpl. lia.
  - in_list.
  - in_list.
Defined.

Lemma tagged_fret_note_witness :
  exists seq,
    [major "E" 0 (0, 0) false] !! index (tag 0 7) = Some seq
    /\ Some "B"
       = lookupZ notes
           ((indexOf notes (Some (tonality seq)) + interval (tag 0 7)) mod 12).
Proof.
  apply (tagged_fret_note notes models NB_FRETS intervalsForSequence
           [major "E" 0 (0, 0) false] [0] "E" 0%nat
           (returned (runMarkString [major "E" 0 (0, 0) false] [0]
                        (newFrets notes NB_FRETS "E" 0)))
           eq_refl notes_NoDup)
    with (f := 19)
         (fret := {| string_ := 0; number := 19; note := Some "B";
                     sequences := [tag 0 7]; isHighlighted := false |}).
  - unfold NB_FRETS. lia.
  - reflexivity.
  - in_list.
  - intros seq [<-|[]]. in_list.
  - vm_compute. reflexivity.
  - vm_compute. reflexivity.
  - left. reflexivity.
Defined.

Lemma extendFrets_length_witness :
  length (extendFrets NB_FRETS MAX_NB_FRETS (newFrets notes NB_FRETS "E" 0))
  = (NB_FRETS
     + (if (MAX_NB_FRETS <? NB_FRETS)%nat then MAX_NB_FRETS
        else Nat.min (MAX_NB_FRETS - NB_FRETS) NB_FRETS))%nat.
Proof.
  apply (extendFrets_length NB_FRETS MAX_NB_FRETS
           (newFrets notes NB_FRETS "E" 0)).
  reflexivity.
Defined.

Lemma extendFrets_replicates_witness :
  extendFrets NB_FRETS MAX_NB_FRETS (newFrets notes NB_FRETS "E" 0) !! 3%nat
  = Some {| string_ := 0; number := 3; note := Some "G"; sequences := [];
            isHighlighted := false |}
  /\ ((3 < MAX_NB_FRETS - NB_FRETS)%nat ->
      extendFrets NB_FRETS MAX_NB_FRETS (newFrets notes NB_FRETS "E" 0)
        !! (NB_FRETS + 3)%nat
      = Some (renumbered NB_FRETS
                {| string_ := 0; number := 3; note := Some "G";
                   sequences := []; isHighlighted := false |})).
Proof.
  apply (extendFrets_replicates NB_FRETS MAX_NB_FRETS
           (newFrets notes NB_FRETS "E" 0) 3).
  - reflexivity.
  - unfold NB_FRETS, MAX_NB_FRETS. lia.
  - reflexivity.
Defined.

Lemma allFrets_layout_witness :
  map (fun fret => (string_ fret, number fret))
    (returned (runAllFrets [major "E" 0 (0, 0) false] ["E"; "A"] false))
  = flat_map (fun s => map (fun k => (s, Z.of_nat k)) (seq 0 MAX_NB_FRETS))
      (seq 0 (length ["E"; "A"])).
Proof.
  apply (allFrets_layout notes models NB_FRETS MAX_NB_FRETS
           intervalsForSequence [major "E" 0 (0, 0) false] ["E"; "A"] false).
  - unfold NB_FRETS, MAX_NB_FRETS. lia.
  - vm_compute. reflexivity.
Defined.

Lemma octave_duplicate_marks_down_witness :
  octavePairedDown models NB_FRETS [major "E" 0 (0, 0) false] [0]
    (returned (runMarkString [major "E" 0 (0, 0) false] [0]
                 (newFrets notes NB_FRETS "E" 0))).
Proof.
  apply (octave_duplicate_marks_down notes models NB_FRETS
           intervalsForSequence [major "E" 0 (0, 0) false] [0] "E" 0%nat
           (returned (runMarkString [major "E" 0 (0, 0) false] [0]
                        (newFrets notes NB_FRETS "E" 0)))
           eq_refl).
  - intros index seq i Hseq Hi.
    destruct index as [|index]; [|discriminate].
    injection Hseq as <-.
    set (r := rootFretOf (major "E" 0 (0, 0) false)
                (newFrets notes NB_FRETS "E" 0)).
    value_of r.
    simpl in Hi.
    repeat (destruct Hi as [<-|Hi]; [lia|]). destruct Hi.
  - vm_compute. reflexivity.
Defined.

End SampleRuns.
